(** * Dockerhood: request orchestration and status synchronisation

    A shallow embedding of
      - [dockerhood_libraries/requests.py]  ([Request], [RequestManager]),
      - [dockerhood_libraries/status.py]    ([DockerhoodStatus], [StatusUpdater]),
      - the execution loop at the bottom of [dockerhood.py],
    followed by the properties of these pieces.

    Conventions.
      - Instants ([datetime]) and durations ([timedelta], and the float
        seconds handed to [sleep]) are integers counting microseconds.
      - Python objects that are shared and mutated in place ([Request]) live
        in a heap indexed by object address; the manager's dictionary holds
        addresses, as the Python dictionary holds references.
      - A function that can raise returns the state it leaves behind together
        with a [Result]. *)

From stdpp Require Import functions gmap strings list.

Open Scope Z_scope.

(** ** Python values and exceptions *)

(** The values an action may hand back. [PyObj] stands for any object the
    layer never looks into. *)
Inductive PyValue :=
  | PyNone
  | PyBool (b : bool)
  | PyInt (z : Z)
  | PyStr (s : string)
  | PyObj (id : nat).

(** The exceptions that cross a function boundary in the modelled code. *)
Inductive Exn :=
  | SystemExit
  | KeyError
  | IndexError
  | ValueError
  | DockerError.

Inductive Result (A : Type) :=
  | Ok (a : A)
  | Raise (e : Exn).
Arguments Ok {A} a.
Arguments Raise {A} e.

(** ** [str.split] and the traceback text *)

Definition newline : Ascii.ascii := Ascii.ascii_of_nat 10.

(** [s.split(sep)] for a one-character separator: the pieces between the
    separators, in order; an empty string yields one empty piece. *)
Fixpoint split_on (sep : Ascii.ascii) (s : string) : list string :=
  match s with
  | EmptyString => [EmptyString]
  | String c s' =>
      if decide (c = sep) then EmptyString :: split_on sep s'
      else match split_on sep s' with
           | [] => [String c EmptyString]
           | l :: ls => String c l :: ls
           end
  end.

(** [[l for l in err_mesg.split('\n') if l != '']] *)
Definition traceback_lines (err_mesg : string) : list string :=
  filter (λ l, l ≠ EmptyString) (split_on newline err_mesg).

(** What [traceback.format_exc()] returns inside an [except] block that
    caught an exception raised by a call below it: the header line, then
    the stack frames and the rendering of the exception ([frames], which
    may be any text, empty lines included). *)
Definition traceback_header : string := "Traceback (most recent call last):".

Definition format_exc (frames : string) : string :=
  traceback_header +:+ String newline frames.

(** ** Request *)

Inductive Status :=
  | PENDING
  | EXECUTING
  | EXECUTED
  | ERROR.

(** The integer each status stands for in [Request]. *)
Definition status_code (s : Status) : Z :=
  match s with
  | PENDING => 1
  | EXECUTING => 2
  | EXECUTED => 3
  | ERROR => -1
  end.

Global Instance Status_eq_dec : EqDecision Status.
Proof. solve_decision. Defined.

(** What calling [action()] does: return a value, raise [SystemExit], or
    raise anything else (carrying the text [format_exc] prints after its
    header line). *)
Inductive ActionResult :=
  | Returns (v : PyValue)
  | RaisesSystemExit
  | RaisesError (frames : string).

Definition Action : Type := unit → ActionResult.

Record Request := mkRequest {
  uuid : string;
  creation_time : Z;
  action : Action;
  status : Status;
  answer : PyValue;
}.

(** [Request.__init__]: [generated] is [str(generate_uuid())] and [now] is
    [datetime.now()]. *)
Definition Request_init (generated : string) (now : Z) (act : Action) : Request :=
  {| uuid := generated;
     creation_time := now;
     action := act;
     status := PENDING;
     answer := PyNone |}.

(** [Request.age] *)
Definition age (now : Z) (r : Request) : Z := now - creation_time r.

Definition set_status (s : Status) (r : Request) : Request :=
  {| uuid := uuid r; creation_time := creation_time r; action := action r;
     status := s; answer := answer r |}.

Definition set_answer (v : PyValue) (r : Request) : Request :=
  {| uuid := uuid r; creation_time := creation_time r; action := action r;
     status := status r; answer := v |}.

(** [Request.execute], first statement: [self.status = Request.EXECUTING]. *)
Definition execute_begin (r : Request) : Request := set_status EXECUTING r.

(** [Request.execute], the [try] statement. *)
Definition execute_try (r : Request) : Request * Result unit :=
  match action r () with
  | Returns v => (set_status EXECUTED (set_answer v r), Ok ())
  | RaisesSystemExit => (set_status EXECUTED r, Raise SystemExit)
  | RaisesError frames =>
      match last (traceback_lines (format_exc frames)) with
      | Some line => (set_status ERROR (set_answer (PyStr line) r), Ok ())
      | None => (r, Raise IndexError)
      end
  end.

Definition execute (r : Request) : Request * Result unit :=
  execute_try (execute_begin r).

(** ** The heap of [Request] objects and the [RequestManager] fields *)

(** What an address holds before any object is allocated there; no reference
    to such an address exists. *)
Definition unallocated : Request :=
  Request_init EmptyString 0 (λ _, Returns PyNone).

(** The [RequestManager] object ([_request_dict], [_request_deque],
    [responsiveness], [discard_time]) together with the heap its references
    point into. [next_addr] is the address the next [Request] object gets. *)
Record World := mkWorld {
  heap : nat → Request;
  next_addr : nat;
  _request_dict : gmap string nat;
  _request_deque : list string;
  responsiveness : Z;
  discard_time : Z;
}.

Definition set_heap (h : nat → Request) (w : World) : World :=
  {| heap := h; next_addr := next_addr w;
     _request_dict := _request_dict w; _request_deque := _request_deque w;
     responsiveness := responsiveness w; discard_time := discard_time w |}.

Definition set_collections (d : gmap string nat) (q : list string) (w : World) : World :=
  {| heap := heap w; next_addr := next_addr w;
     _request_dict := d; _request_deque := q;
     responsiveness := responsiveness w; discard_time := discard_time w |}.

Definition seconds (n : Z) : Z := n * 1000000.
Definition one_day : Z := seconds 86400.
Definition half_second : Z := 500000.

(** [RequestManager.__init__(stop_flag, responsiveness=0.5, discard_time=None)] *)
Definition RequestManager_init (resp : option Z) (discard : option Z) : World :=
  {| heap := λ _, unallocated;
     next_addr := 0%nat;
     _request_dict := ∅;
     _request_deque := [];
     responsiveness := default half_second resp;
     discard_time := default one_day discard |}.

(** [RequestManager.create_request]; [generated] and [now] are what
    [Request.__init__] reads from [generate_uuid] and [datetime.now]. *)
Definition create_request (generated : string) (now : Z) (act : Action)
    (w : World) : World * string :=
  let request := Request_init generated now act in
  let a := next_addr w in
  ({| heap := <[a := request]> (heap w);
      next_addr := S a;
      _request_dict := <[uuid request := a]> (_request_dict w);
      _request_deque := _request_deque w ++ [uuid request];
      responsiveness := responsiveness w;
      discard_time := discard_time w |},
   uuid request).

(** [RequestManager.get_next_request]: the reference to the head request,
    or [None] on an empty deque. *)
Definition get_next_request (w : World) : World * Result (option nat) :=
  match _request_deque w with
  | [] => (w, Ok None)
  | next_request_uuid :: rest =>
      let w' := set_collections (_request_dict w) rest w in
      match _request_dict w !! next_request_uuid with
      | Some a => (w', Ok (Some a))
      | None => (w', Raise KeyError)
      end
  end.

(** [RequestManager.get_request_status] *)
Definition get_request_status (w : World) (request_uuid : string) : option Status :=
  match _request_dict w !! request_uuid with
  | None => None
  | Some a => Some (status (heap w a))
  end.

(** [RequestManager.get_answer]; Python's [None] is [PyNone]. *)
Definition get_answer (w : World) (request_uuid : string) : PyValue :=
  match _request_dict w !! request_uuid with
  | None => PyNone
  | Some a => answer (heap w a)
  end.

(** The inner [while len(old_queue) > 0] loop of [RequestManager.run]:
    [d] is [self._request_dict], [new_queue] is [self._request_deque]. *)
Fixpoint discard_old (now discard : Z) (h : nat → Request)
    (old_queue : list string) (d : gmap string nat) (new_queue : list string)
    : gmap string nat * list string * Result unit :=
  match old_queue with
  | [] => (d, new_queue, Ok ())
  | u :: rest =>
      match d !! u with
      | None => (d, new_queue, Raise KeyError)
      | Some a =>
          if decide (age now (h a) > discard)
          then discard_old now discard h rest (delete u d) new_queue
          else discard_old now discard h rest d (new_queue ++ [u])
      end
  end.

(** The part of [RequestManager.run] between acquiring and releasing the
    lock. The sweep is taken to happen at one instant: every [age()] in it
    reads the clock as [now]. *)
Definition sweep (now : Z) (w : World) : World * Result unit :=
  let '(d, q, res) :=
    discard_old now (discard_time w) (heap w) (_request_deque w)
      (_request_dict w) [] in
  (set_collections d q w, res).

(** [request.execute()] on the object at address [a]. *)
Definition heap_execute_begin (a : nat) (w : World) : World :=
  set_heap (<[a := execute_begin (heap w a)]> (heap w)) w.

Definition heap_execute_try (a : nat) (w : World) : World * Result unit :=
  let '(r, res) := execute_try (heap w a) in
  (set_heap (<[a := r]> (heap w)) w, res).

Definition heap_execute (a : nat) (w : World) : World * Result unit :=
  heap_execute_try a (heap_execute_begin a w).

(** ** The reaper thread: [RequestManager.run] *)

Inductive LoopCtl :=
  | Continue
  | Break
  | Died (e : Exn).

(** The thread's local [time_passed], the shared world, and a ghost log:
    the value of [time_passed] at each sweep, latest first. *)
Record Reaper := mkReaper {
  time_passed : Z;
  world : World;
  sweep_log : list Z;
}.

(** [RequestManager.run] before its loop. *)
Definition Reaper_start (w : World) : Reaper :=
  {| time_passed := 0; world := w; sweep_log := [] |}.

(** [time.sleep(secs)]: a negative length raises [ValueError]. *)
Definition sleep (secs : Z) : Result unit :=
  if decide (secs < 0) then Raise ValueError else Ok ().

(** One iteration of [while True] in [RequestManager.run]; [stop_flag] is
    what [self.stop_flag] evaluates to and [now] the clock at this tick.
    An exception out of [sleep] or out of the sweep ends the thread.

    The code adds seconds as floats, the model adds whole microseconds. The
    two agree as long as [time_passed] and [responsiveness] are whole
    numbers of 64ths of a second (the default, 0.5, is): such times and
    their sums are floats, so the code adds them without rounding, and once
    the sum has passed 3600 the test [time_passed < 3600] fails in both for
    good. *)
Definition run_iteration (stop_flag : bool) (now : Z) (st : Reaper)
    : Reaper * LoopCtl :=
  match sleep (responsiveness (world st)) with
  | Raise e => (st, Died e)
  | Ok _ =>
      let t := time_passed st + responsiveness (world st) in
      if stop_flag then
        ({| time_passed := t; world := world st; sweep_log := sweep_log st |}, Break)
      else if decide (t < seconds 3600) then
        ({| time_passed := t; world := world st; sweep_log := sweep_log st |}, Continue)
      else
        let '(w', res) := sweep now (world st) in
        ({| time_passed := t; world := w'; sweep_log := t :: sweep_log st |},
         match res with Ok _ => Continue | Raise e => Died e end)
  end.

(** [RequestManager.run] over the ticks in [env], one pair (value of the
    stop flag, clock reading) per tick. *)
Fixpoint run (env : list (bool * Z)) (st : Reaper) : Reaper * LoopCtl :=
  match env with
  | [] => (st, Continue)
  | (stop_flag, now) :: env' =>
      match run_iteration stop_flag now st with
      | (st', Continue) => run env' st'
      | stopped => stopped
      end
  end.

(** ** Histories of operations on the manager and its requests

    The threads of the program act on the shared world one operation at a
    time: the interfaces create requests, the main thread takes the next
    request and executes it, the reaper sweeps. [execute] is split at the
    point where other threads can observe [EXECUTING]. *)
Inductive Op :=
  | OpCreate (generated : string) (now : Z) (act : Action)
  | OpNext
  | OpSweep (now : Z)
  | OpExecuteBegin (a : nat)
  | OpExecuteTry (a : nat).

Definition apply_op (op : Op) (w : World) : World :=
  match op with
  | OpCreate generated now act => (create_request generated now act w).1
  | OpNext => (get_next_request w).1
  | OpSweep now => (sweep now w).1
  | OpExecuteBegin a => heap_execute_begin a w
  | OpExecuteTry a => (heap_execute_try a w).1
  end.

Definition run_ops (ops : list Op) (w : World) : World :=
  foldl (λ w op, apply_op op w) w ops.

(** The uuids [generate_uuid] handed out, oldest first. *)
Definition issued (ops : list Op) : list string :=
  omap (λ op, match op with OpCreate g _ _ => Some g | _ => None end) ops.

Inductive Phase :=
  | PhaseBegin
  | PhaseTry.

Global Instance Phase_eq_dec : EqDecision Phase.
Proof. solve_decision. Defined.

(** The halves of [execute] run on the object at address [a], in order. *)
Definition exec_history (a : nat) (ops : list Op) : list Phase :=
  omap (λ op, match op with
              | OpExecuteBegin b => if decide (b = a) then Some PhaseBegin else None
              | OpExecuteTry b => if decide (b = a) then Some PhaseTry else None
              | _ => None
              end) ops.

(** [execute()] is invoked at most once on the object at [a]: nothing, or
    its first half, or its first half followed by its second. *)
Definition executed_at_most_once (a : nat) (ops : list Op) : Prop :=
  exec_history a ops `prefix_of` [PhaseBegin; PhaseTry].

(** A method is only ever called on an object that exists: every
    [execute] phase in the history targets an address allocated by an
    earlier [create_request]. [n] counts the objects allocated so far. *)
Fixpoint calls_on_objects (n : nat) (ops : list Op) : Prop :=
  match ops with
  | [] => True
  | OpCreate _ _ _ :: ops' => calls_on_objects (S n) ops'
  | OpExecuteBegin a :: ops' => (a < n)%nat ∧ calls_on_objects n ops'
  | OpExecuteTry a :: ops' => (a < n)%nat ∧ calls_on_objects n ops'
  | _ :: ops' => calls_on_objects n ops'
  end.

(** The order in which a request's status may be observed: [PENDING] first,
    then [EXECUTING], then one of the two final values, which stays. *)
Definition status_le (s1 s2 : Status) : Prop :=
  match s1, s2 with
  | PENDING, _ => True
  | EXECUTING, (EXECUTING | EXECUTED | ERROR) => True
  | EXECUTED, EXECUTED => True
  | ERROR, ERROR => True
  | _, _ => False
  end.

(** ** [container_checks]: what the status is read from *)

(** The fields of [config] the status layer reads; a host is known by its
    name. *)
Record Config := mkConfig {
  hosts : list string;
  project : string;
  running_linker_host : string;
}.

(** A worker as [worker_list] describes it. *)
Record Worker := mkWorker {
  ext_name : string;
  int_name : option string;
  queue : string;
  active : bool;
  worker_host : string;
}.

(** The answers of the Docker engines at one instant: per host, the names
    of all containers, of the running ones, and the image tags; and what
    [worker_list()] computes from them. Any query may raise. *)
Record Docker := mkDocker {
  container_list : string → Result (list string);
  active_container_list : string → Result (list string);
  image_list : string → Result (list string);
  workers : Result (list Worker);
}.

Module container_checks.

Definition linker_exists (config : Config) (d : Docker) : Result bool :=
  match container_list d (running_linker_host config) with
  | Raise e => Raise e
  | Ok names => Ok (bool_decide ((project config +:+ "_linker") ∈ names))
  end.

Definition linker_is_running (config : Config) (d : Docker) : Result bool :=
  match active_container_list d (running_linker_host config) with
  | Raise e => Raise e
  | Ok names => Ok (bool_decide ((project config +:+ "_linker") ∈ names))
  end.

(** The [for host in config.hosts] loop of [slurm_master_host]. *)
Fixpoint first_host_with (d : Docker) (container_name : string)
    (hs : list string) : Result (option string) :=
  match hs with
  | [] => Ok None
  | host :: hs' =>
      match container_list d host with
      | Raise e => Raise e
      | Ok host_containers =>
          if bool_decide (container_name ∈ host_containers)
          then Ok (Some host)
          else first_host_with d container_name hs'
      end
  end.

Definition slurm_master_host (config : Config) (d : Docker)
    : Result (option string) :=
  first_host_with d (project config +:+ "_slurm_master") (hosts config).

Definition slurm_master_is_running (config : Config) (d : Docker) : Result bool :=
  match slurm_master_host config d with
  | Raise e => Raise e
  | Ok None => Ok false
  | Ok (Some host) =>
      match active_container_list d host with
      | Raise e => Raise e
      | Ok names =>
          Ok (bool_decide ((project config +:+ "_slurm_master") ∈ names))
      end
  end.

Definition worker_list (d : Docker) : Result (list Worker) := workers d.

End container_checks.

(** ** [DockerhoodStatus] *)

Record DockerhoodStatus := mkDockerhoodStatus {
  linker_exists : bool;
  linker_is_running : bool;
  slurm_master_exists : bool;
  slurm_master_host : option string;
  slurm_master_is_running : bool;
  worker_list : list Worker;
  images : gmap string (list string);
}.

Module DockerhoodStatus.

Definition set_linker (e r : bool) (s : DockerhoodStatus) : DockerhoodStatus :=
  {| linker_exists := e; linker_is_running := r;
     slurm_master_exists := slurm_master_exists s;
     slurm_master_host := slurm_master_host s;
     slurm_master_is_running := slurm_master_is_running s;
     worker_list := worker_list s; images := images s |}.

Definition set_master_host (h : option string) (s : DockerhoodStatus)
    : DockerhoodStatus :=
  {| linker_exists := linker_exists s; linker_is_running := linker_is_running s;
     slurm_master_exists := slurm_master_exists s;
     slurm_master_host := h;
     slurm_master_is_running := slurm_master_is_running s;
     worker_list := worker_list s; images := images s |}.

Definition set_master_exists (b : bool) (s : DockerhoodStatus)
    : DockerhoodStatus :=
  {| linker_exists := linker_exists s; linker_is_running := linker_is_running s;
     slurm_master_exists := b;
     slurm_master_host := slurm_master_host s;
     slurm_master_is_running := slurm_master_is_running s;
     worker_list := worker_list s; images := images s |}.

Definition set_master_running (b : bool) (s : DockerhoodStatus)
    : DockerhoodStatus :=
  {| linker_exists := linker_exists s; linker_is_running := linker_is_running s;
     slurm_master_exists := slurm_master_exists s;
     slurm_master_host := slurm_master_host s;
     slurm_master_is_running := b;
     worker_list := worker_list s; images := images s |}.

Definition set_workers (l : list Worker) (s : DockerhoodStatus)
    : DockerhoodStatus :=
  {| linker_exists := linker_exists s; linker_is_running := linker_is_running s;
     slurm_master_exists := slurm_master_exists s;
     slurm_master_host := slurm_master_host s;
     slurm_master_is_running := slurm_master_is_running s;
     worker_list := l; images := images s |}.

Definition set_images (i : gmap string (list string)) (s : DockerhoodStatus)
    : DockerhoodStatus :=
  {| linker_exists := linker_exists s; linker_is_running := linker_is_running s;
     slurm_master_exists := slurm_master_exists s;
     slurm_master_host := slurm_master_host s;
     slurm_master_is_running := slurm_master_is_running s;
     worker_list := worker_list s; images := i |}.

(** The last loop of [update]: the project's image tags, host by host. *)
Fixpoint update_images (config : Config) (d : Docker) (hs : list string)
    (s : DockerhoodStatus) : DockerhoodStatus * Result unit :=
  match hs with
  | [] => (s, Ok ())
  | host :: hs' =>
      match image_list d host with
      | Raise e => (s, Raise e)
      | Ok tags =>
          let mine :=
            filter (λ i, String.prefix (project config +:+ "_") i = true) tags in
          update_images config d hs' (set_images (<[host := mine]> (images s)) s)
      end
  end.

(** [DockerhoodStatus.update], statement by statement; a query that
    raises ends it with the fields assigned so far. *)
Definition update (config : Config) (d : Docker) (s : DockerhoodStatus)
    : DockerhoodStatus * Result unit :=
  match container_checks.linker_exists config d with
  | Raise e => (s, Raise e)
  | Ok le =>
  let s := set_linker le (linker_is_running s) s in
  match container_checks.linker_is_running config d with
  | Raise e => (s, Raise e)
  | Ok lr =>
  let s := set_linker (linker_exists s) lr s in
  match container_checks.slurm_master_host config d with
  | Raise e => (s, Raise e)
  | Ok h =>
  let s := set_master_host h s in
  let s := match slurm_master_host s with
           | None => set_master_exists false s
           | Some _ => set_master_exists true s
           end in
  match container_checks.slurm_master_is_running config d with
  | Raise e => (s, Raise e)
  | Ok mr =>
  let s := set_master_running mr s in
  match container_checks.worker_list d with
  | Raise e => (s, Raise e)
  | Ok ws =>
  let s := set_workers ws s in
  update_images config d (hosts config) s
  end end end end end.

(** [DockerhoodStatus.__init__]: the object as the constructor leaves it,
    and whether the constructor returned or raised. *)
Definition init (config : Config) (d : Docker) : DockerhoodStatus * Result unit :=
  update config d
    {| linker_exists := false; linker_is_running := false;
       slurm_master_exists := false; slurm_master_host := None;
       slurm_master_is_running := false;
       worker_list := [];
       images := foldl (λ m host, <[host := []]> m) ∅ (hosts config) |}.

End DockerhoodStatus.

(** ** [StatusUpdater] *)

(** The attributes of the [StatusUpdater] object that several threads read
    and write. *)
Record StatusUpdater := mkStatusUpdater {
  _update_time : Z;
  _resp : Z;
  _update_now : bool;
  _executed : bool;
  _paused : bool;
}.

Definition set_flags (now executed paused : bool) (u : StatusUpdater) : StatusUpdater :=
  {| _update_time := _update_time u; _resp := _resp u;
     _update_now := now; _executed := executed; _paused := paused |}.

(** [StatusUpdater.__init__(dockerhood_status, stop_flag, update_time=5,
    responsiveness=0.5)] *)
Definition StatusUpdater_init (update_time resp : option Z) : StatusUpdater :=
  {| _update_time := default (seconds 5) update_time;
     _resp := default half_second resp;
     _update_now := false; _executed := false; _paused := false |}.

(** [StatusUpdater.pause] and [StatusUpdater.unpause] *)
Definition pause (u : StatusUpdater) : StatusUpdater :=
  set_flags (_update_now u) (_executed u) true u.

Definition unpause (u : StatusUpdater) : StatusUpdater :=
  set_flags (_update_now u) (_executed u) false u.

(** The two writes of [StatusUpdater.update]: the request
    ([self._update_now = True]) and, once [_executed] was seen, the reset
    ([self._executed = False]). *)
Definition update_request (u : StatusUpdater) : StatusUpdater :=
  set_flags true (_executed u) (_paused u) u.

Definition update_reset (u : StatusUpdater) : StatusUpdater :=
  set_flags (_update_now u) false (_paused u) u.

(** Why [self._update()] was called: on request, or because the timer ran
    past [_update_time]. *)
Inductive RefreshCause :=
  | Forced
  | Periodic.

(** Where the thread stands in [run]: at the head or inside the body of the
    loop that follows the message 'StatusUpdater started', the same for the
    loop that follows 'StatusUpdater paused', at the final stop check, or
    returned. *)
Inductive Pc :=
  | StartedHead
  | StartedBody
  | PausedHead
  | PausedBody
  | StopCheck
  | Returned.

(** The updater thread: the shared object, the local [time_without_update],
    the position in [run], and a ghost log of the refreshes, latest first. *)
Record UpdaterThread := mkUpdaterThread {
  shared : StatusUpdater;
  time_without_update : Z;
  pc : Pc;
  refreshes : list RefreshCause;
}.

Definition UpdaterThread_start (u : StatusUpdater) : UpdaterThread :=
  {| shared := u; time_without_update := 0; pc := StartedHead; refreshes := [] |}.

Definition goto (p : Pc) (t : UpdaterThread) : UpdaterThread :=
  {| shared := shared t; time_without_update := time_without_update t;
     pc := p; refreshes := refreshes t |}.

Definition set_timer (z : Z) (t : UpdaterThread) : UpdaterThread :=
  {| shared := shared t; time_without_update := z;
     pc := pc t; refreshes := refreshes t |}.

(** [self._update()], returning: the refresh is logged. A refresh that
    raises is in [serve_request_or_raise] and [timer_refresh_or_raise]. *)
Definition _update (c : RefreshCause) (t : UpdaterThread) : UpdaterThread :=
  {| shared := shared t; time_without_update := time_without_update t;
     pc := pc t; refreshes := c :: refreshes t |}.

Definition with_shared (u : StatusUpdater) (t : UpdaterThread) : UpdaterThread :=
  {| shared := u; time_without_update := time_without_update t;
     pc := pc t; refreshes := refreshes t |}.

(** [self._update_now = False; self._update(); self._executed = True] *)
Definition serve_request (t : UpdaterThread) : UpdaterThread :=
  let t := with_shared (set_flags false (_executed (shared t)) (_paused (shared t))
                          (shared t)) t in
  let t := _update Forced t in
  with_shared (set_flags (_update_now (shared t)) true (_paused (shared t))
                 (shared t)) t.

(** One step of [StatusUpdater.run]: a loop test, or a loop body from its
    [sleep] to its end. [stop_flag] is what [self.stop_flag] evaluates to
    when the step reads it. A refresh is taken to return normally and the
    sleep length [_resp] not to be negative; [thread_step_or_raise] is the
    step without these two provisos. The timer is counted in whole
    microseconds where the code adds floats: the two agree for times that
    are whole numbers of 64ths of a second, as the defaults are. *)
Definition thread_step (stop_flag : bool) (t : UpdaterThread) : UpdaterThread :=
  match pc t with
  | StartedHead =>
      if _paused (shared t) then goto StartedBody t else goto PausedHead t
  | StartedBody =>
      let t := set_timer (time_without_update t + _resp (shared t)) t in
      if stop_flag then goto PausedHead t
      else
        let t := if _update_now (shared t)
                 then serve_request (set_timer 0 t)
                 else t in
        let t := if decide (time_without_update t > _update_time (shared t))
                 then _update Periodic (set_timer 0 t)
                 else t in
        goto StartedHead t
  | PausedHead =>
      if _paused (shared t) then goto PausedBody t else goto StopCheck t
  | PausedBody =>
      if stop_flag then goto StopCheck t
      else
        let t := if _update_now (shared t) then serve_request t else t in
        goto PausedHead t
  | StopCheck =>
      if stop_flag then goto Returned t
      else goto StartedHead (set_timer 0 t)
  | Returned => t
  end.

(** What happens to the updater, one event at a time: a step of its own
    thread, or another thread calling [pause], [unpause], or one of the
    two writes of [update]. *)
Inductive UpdaterEvent :=
  | Step (stop_flag : bool)
  | DoPause
  | DoUnpause
  | DoUpdateRequest
  | DoUpdateReset.

Definition updater_event (e : UpdaterEvent) (t : UpdaterThread) : UpdaterThread :=
  match e with
  | Step stop_flag => thread_step stop_flag t
  | DoPause => with_shared (pause (shared t)) t
  | DoUnpause => with_shared (unpause (shared t)) t
  | DoUpdateRequest => with_shared (update_request (shared t)) t
  | DoUpdateReset => with_shared (update_reset (shared t)) t
  end.

Definition updater_run (es : list UpdaterEvent) (t : UpdaterThread) : UpdaterThread :=
  foldl (λ t e, updater_event e t) t es.

(** ** The execution loop of [dockerhood.py] *)

(** The calls the main thread makes besides those on the manager. *)
Inductive Call :=
  | CallSleep
  | CallPause
  | CallExecute (a : nat)
  | CallUpdate
  | CallUnpause.

(** The main thread's view: the shared world, the [StatusUpdater] object it
    drives, and the calls made so far, oldest first. *)
Record Main := mkMain {
  main_world : World;
  status_updater : StatusUpdater;
  calls : list Call;
}.

Definition with_world (w : World) (m : Main) : Main :=
  {| main_world := w; status_updater := status_updater m; calls := calls m |}.

Definition with_updater (u : StatusUpdater) (m : Main) : Main :=
  {| main_world := main_world m; status_updater := u; calls := calls m |}.

Definition record_call (c : Call) (m : Main) : Main :=
  {| main_world := main_world m; status_updater := status_updater m;
     calls := calls m ++ [c] |}.

(** [status_updater.pause()] and [status_updater.unpause()] *)
Definition pause_call (m : Main) : Main :=
  record_call CallPause (with_updater (pause (status_updater m)) m).

Definition unpause_call (m : Main) : Main :=
  record_call CallUnpause (with_updater (unpause (status_updater m)) m).

(** [status_updater.update()]: the request is written, the updater thread
    serves it (clearing [_update_now], setting [_executed]), the caller sees
    [_executed] and resets it. What is left is the call and both flags
    cleared. *)
Definition update_call (m : Main) : Main :=
  let u := update_request (status_updater m) in
  let u := set_flags false true (_paused u) u in
  record_call CallUpdate (with_updater (update_reset u) m).

(** [request.execute()] from the main thread. *)
Definition execute_call (request : nat) (m : Main) : Main * Result unit :=
  let '(w, res) := heap_execute request (main_world m) in
  (with_world w (record_call (CallExecute request) m), res).

(** One iteration of [while True] in [dockerhood.py]. An exception leaves
    the loop ([Died]). *)
Definition main_iteration (m : Main) : Main * LoopCtl :=
  match get_next_request (main_world m) with
  | (w1, Raise e) => (with_world w1 m, Died e)
  | (w1, Ok None) => (record_call CallSleep (with_world w1 m), Continue)
  | (w1, Ok (Some request)) =>
      let m1 := pause_call (with_world w1 m) in
      match execute_call request m1 with
      | (m2, Raise e) => (m2, Died e)
      | (m2, Ok _) => (unpause_call (update_call m2), Continue)
      end
  end.

(** The loop among the other threads: before each of its iterations the
    other threads perform the operations of one element of [env] on the
    shared world (none, for an empty element). [Continue] means the loop is
    still running when [env] is used up. *)
Fixpoint main_loop (env : list (list Op)) (m : Main) : Main * LoopCtl :=
  match env with
  | [] => (m, Continue)
  | others :: env' =>
      match main_iteration (with_world (run_ops others (main_world m)) m) with
      | (m', Continue) => main_loop env' m'
      | stopped => stopped
      end
  end.


(** ** Invariants and predicates used in the statements *)

(** Every id in the FIFO has an entry in the map. *)
Definition fifo_in_map (w : World) : Prop :=
  Forall (λ u, is_Some (_request_dict w !! u)) (_request_deque w).

(** The FIFO refers to registered requests only and holds no id twice. *)
Definition manager_ok (w : World) : Prop :=
  fifo_in_map w ∧ NoDup (_request_deque w).

(** Between [w] and [w'], an id that left the map is not in the FIFO and an
    id that left the FIFO is not in the map. *)
Definition removal_coupled (w w' : World) : Prop :=
  ∀ u,
    (is_Some (_request_dict w !! u) → _request_dict w' !! u = None →
     u ∉ _request_deque w') ∧
    (u ∈ _request_deque w → u ∉ _request_deque w' →
     _request_dict w' !! u = None).

(** A string with no line break in it. *)
Definition single_line (s : string) : Prop :=
  newline ∉ String.list_ascii_of_string s.

(** [line] is the last non-empty line of [text]. *)
Definition last_nonempty_line (text line : string) : Prop :=
  ∃ pre post,
    split_on newline text = pre ++ line :: post ∧
    line ≠ EmptyString ∧
    Forall (λ l, l = EmptyString) post.

(** A main thread that has made no call yet. *)
Definition Main_start (w : World) (u : StatusUpdater) : Main :=
  {| main_world := w; status_updater := u; calls := [] |}.

(** The two master fields of a status say the same thing. *)
Definition master_fields_agree (s : DockerhoodStatus) : Prop :=
  slurm_master_exists s = true ↔ slurm_master_host s ≠ None.

(** The status object after its construction against [d0] and one call of
    [update] per element of [ds], whether the calls returned or raised. *)
Definition status_after (config : Config) (d0 : Docker) (ds : list Docker)
    : DockerhoodStatus :=
  foldl (λ s d, (DockerhoodStatus.update config d s).1)
        (DockerhoodStatus.init config d0).1 ds.

(** The request registered under [u] in [d] is older than [disc] at [now]. *)
Definition too_old (now disc : Z) (h : nat → Request) (d : gmap string nat)
    (u : string) : Prop :=
  match d !! u with
  | Some a => age now (h a) > disc
  | None => False
  end.

(** What holds of the manager after the operations [ops] on a fresh one:
    the objects allocated are as many as the uuids issued; every registered
    id was issued and refers to an allocated object; the FIFO refers to
    registered requests only, without repetition. *)
Definition reached (ops : list Op) (w : World) : Prop :=
  next_addr w = length (issued ops) ∧
  (∀ u a, _request_dict w !! u = Some a → (a < next_addr w)%nat ∧ u ∈ issued ops) ∧
  manager_ok w.

(** [None] from [get_answer] is given for unregistered ids only. *)
Definition answer_none_means_unknown (w : World) : Prop :=
  ∀ u, get_answer w u = PyNone → _request_dict w !! u = None.

(** The status a request object shows after the given halves of [execute]
    have run on it. *)
Definition status_after_phases (hist : list Phase) (s : Status) : Prop :=
  match hist with
  | [] => s = PENDING
  | [PhaseBegin] => s = EXECUTING
  | [PhaseBegin; PhaseTry] => s = EXECUTED ∨ s = ERROR
  | _ => True
  end.

(** ** Sample actions and worlds *)

(** The console's stop command submits [exit], which raises [SystemExit]. *)
Definition exit_action : Action := λ _, RaisesSystemExit.

Definition ok_action : Action := λ _, Returns (PyStr "ok").

(** An action that raises [ValueError("boom")]: the text is what follows
    the header in the formatted traceback. *)
Definition boom_frames : string :=
  "  File requests.py, line 74, in execute" +:+ String newline
  ("    self.answer = self.action()" +:+ String newline
  ("ValueError: boom" +:+ String newline EmptyString)).

Definition boom_action : Action := λ _, RaisesError boom_frames.

Definition fresh_world : World := RequestManager_init None None.

Definition fresh_updater : StatusUpdater := StatusUpdater_init None None.

(** A manager holding one request, submitted at instant 0. *)
Definition world_with (act : Action) : World :=
  (create_request "r1" 0 act fresh_world).1.

(** The sample request submitted at instant 0, taken by the main thread
    and executed. *)
Definition world_after_execution : World :=
  run_ops [OpCreate "r1" 0 ok_action; OpNext; OpExecuteBegin 0; OpExecuteTry 0]
          fresh_world.

(** An hour of ticks of half a second. *)
Definition ticks_per_hour : nat := Z.to_nat 7200.

(** The time of the sweeps logged after [n] ticks beyond the first hour,
    latest first: one per tick. *)
Definition sweeps_every_tick (n : nat) : list Z :=
  (λ k : nat, seconds 3600 + Z.of_nat k * half_second) <$> reverse (seq 0 (S n)).

(** The reaper of a fresh manager after [n] ticks with the stop flag down,
    the clock reading [now] at each of them. *)
Definition reaper_after (n : nat) (now : Z) : Reaper :=
  (run (replicate n (false, now)) (Reaper_start fresh_world)).1.

(** An event that leaves the updater active and the stop flag down:
    anything but a call of [pause] or a step that reads a raised flag. *)
Definition active_event (e : UpdaterEvent) : Prop :=
  match e with
  | DoPause => False
  | Step stop_flag => stop_flag = false
  | _ => True
  end.

(** The thread is at one of the three tests of [run], none of which sleeps
    or refreshes. *)
Definition at_test (p : Pc) : Prop :=
  match p with
  | StartedHead | PausedHead | StopCheck => True
  | _ => False
  end.

(** The updater thread of a fresh [StatusUpdater] with the default
    intervals, paused by another thread before its first step, after [n]
    steps with the stop flag down. *)
Definition paused_updater_after (n : nat) : UpdaterThread :=
  updater_run (DoPause :: replicate n (Step false))
              (UpdaterThread_start fresh_updater).

(** Two submissions, the first one taken by the main thread, then a sweep
    two days later. *)
Definition sample_ops : list Op :=
  [OpCreate "r1" 0 ok_action; OpCreate "r2" 1 boom_action; OpNext;
   OpSweep (seconds 172800)].

(** The sample request submitted, taken and half executed; then a sweep
    and the second half of [execute]. *)
Definition life_begin : list Op :=
  [OpCreate "r1" 0 ok_action; OpNext; OpExecuteBegin 0].

Definition life_end : list Op :=
  [OpSweep 10; OpExecuteTry 0].

(** The main loop idle for one round, then the console submitting [exit],
    then nothing more from the other threads. *)
Definition stop_request_env : list (list Op) :=
  [[]; [OpCreate "r1" 0 exit_action]; []].

(** ** Further definitions: the sweep and the reaper *)

Global Instance too_old_dec now disc h d u : Decision (too_old now disc h d u).
Proof. unfold too_old. destruct (d !! u); apply _. Defined.

(** A time that the code holds and adds without rounding: the code counts
    seconds in floats, the model whole microseconds, and a whole number of
    64ths of a second (of 15625 microseconds) is a float. *)
Definition float_exact (z : Z) : Prop := (15625 | z).


(** A reaper that has slept for 59 minutes on the registry of the sample
    request. *)
Definition reaper_late : Reaper :=
  {| time_passed := seconds 3540; world := world_with ok_action; sweep_log := [] |}.

(** ** Further definitions: what the main loop has executed *)

(** The requests on which the main thread has called [execute], oldest
    first, by address and by uuid. *)
Definition executed (cs : list Call) : list nat :=
  omap (λ c, match c with CallExecute a => Some a | _ => None end) cs.

Definition executed_uuids (m : Main) : list string :=
  (λ a, uuid (heap (main_world m) a)) <$> executed (calls m).

(** What holds between the main thread and the manager after the
    operations [ops]: the manager is as [reached] says; every registered id
    is the uuid of the object it refers to; the executed requests exist;
    and the executed requests followed by the queued ones are in the order
    in which their uuids were issued. *)
Definition loop_inv (ops : list Op) (m : Main) : Prop :=
  reached ops (main_world m) ∧
  (∀ u a, _request_dict (main_world m) !! u = Some a →
          uuid (heap (main_world m) a) = u) ∧
  Forall (λ a, (a < next_addr (main_world m))%nat) (executed (calls m)) ∧
  (executed_uuids m ++ _request_deque (main_world m)) `sublist_of` issued ops.

(** Three submissions while the main loop runs, a sweep in between. *)
Definition busy_env : list (list Op) :=
  [[OpCreate "r1" 0 ok_action; OpCreate "r2" 1 boom_action]; [];
   [OpCreate "r3" 2 ok_action; OpSweep 3]; []; []].

(** ** Further definitions: the calls of the main loop *)

(** The calls of completed iterations: an idle iteration sleeps; one that
    found a request pauses the updater, executes, forces a refresh and
    resumes the updater. *)
Inductive rounds : list Call → Prop :=
  | rounds_nil : rounds []
  | rounds_idle cs : rounds cs → rounds (cs ++ [CallSleep])
  | rounds_request cs a :
      rounds cs → rounds (cs ++ [CallPause; CallExecute a; CallUpdate; CallUnpause]).

(** The calls of completed iterations followed by one that [execute] left
    by an exception. *)
Definition interrupted (cs : list Call) : Prop :=
  ∃ cs0 a, rounds cs0 ∧ cs = cs0 ++ [CallPause; CallExecute a].

(** The objects the ids in [us] refer to. *)
Definition referred (w : World) (us : list string) : list nat :=
  omap (λ u, _request_dict w !! u) us.

(** Three requests waiting, none of which stops the program. *)
Definition three_waiting : World :=
  run_ops [OpCreate "r1" 0 ok_action; OpCreate "r2" 1 boom_action;
           OpCreate "r3" 2 ok_action] fresh_world.

(** ** Further definitions: [StatusUpdater.update] and the stop flag *)

Global Instance RefreshCause_eq_dec : EqDecision RefreshCause.
Proof. solve_decision. Defined.

(** The loop [while not self._executed: sleep(self._resp)] of
    [StatusUpdater.update], followed by [self._executed = False]. During
    each sleep of the caller the updater thread makes some steps, as many
    as the next element of [sched] says (the stop flag being down); the
    result says whether [update] has returned when [sched] is used up. *)
Fixpoint update_wait (sched : list nat) (t : UpdaterThread)
    : UpdaterThread * bool :=
  match sched with
  | [] =>
      if _executed (shared t)
      then (with_shared (update_reset (shared t)) t, true)
      else (t, false)
  | k :: sched' =>
      if _executed (shared t)
      then (with_shared (update_reset (shared t)) t, true)
      else update_wait sched' (updater_run (replicate k (Step false)) t)
  end.

(** [StatusUpdater.update] *)
Definition StatusUpdater_update (sched : list nat) (t : UpdaterThread)
    : UpdaterThread * bool :=
  update_wait sched (with_shared (update_request (shared t)) t).

(** How many of the refreshes were forced. *)
Definition forced (t : UpdaterThread) : nat :=
  length (filter (λ c, c = Forced) (refreshes t)).





(** How many steps at most separate a position of [run] from the next loop
    body, for a paused updater. *)
Definition steps_to_body (p : Pc) : nat :=
  match p with
  | StartedBody | PausedBody => 1
  | StartedHead | PausedHead => 2
  | StopCheck => 3
  | Returned => 0
  end.

(** A paused updater on which [update] has just written its request. *)
Definition requested (t : UpdaterThread) : Prop :=
  _paused (shared t) = true ∧ _update_now (shared t) = true ∧
  _executed (shared t) = false ∧ pc t ≠ Returned.

(** A paused updater that has served the request: [n] forced refreshes so
    far. *)
Definition served (n : nat) (t : UpdaterThread) : Prop :=
  _paused (shared t) = true ∧ _update_now (shared t) = false ∧
  _executed (shared t) = true ∧ forced t = n ∧ pc t ≠ Returned.

(** ** Further definitions: the status object and its text *)

(** [images] holds a list for the configured hosts and for nothing else,
    and the lists hold tags of the project only. *)
Definition images_ok (config : Config) (s : DockerhoodStatus) : Prop :=
  (∀ host, is_Some (images s !! host) ↔ host ∈ hosts config) ∧
  (∀ host tags i, images s !! host = Some tags → i ∈ tags →
     String.prefix (project config +:+ "_") i = true).

(** A master said to be running is said to exist, and the host named for
    the master is a configured one. *)
Definition master_ok (config : Config) (s : DockerhoodStatus) : Prop :=
  (slurm_master_is_running s = true → slurm_master_exists s = true) ∧
  (∀ host, slurm_master_host s = Some host → host ∈ hosts config).

(** No container named [name] on [host], the host answering. *)
Definition lacks (d : Docker) (name host : string) : Prop :=
  ∃ names, container_list d host = Ok names ∧ name ∉ names.

Definition nl : string := String newline EmptyString.

(** ['{}'.format(b)] for a boolean [b]. *)
Definition format_bool (b : bool) : string := if b then "True" else "False".

(** ['{}'.format(h)] for [h] a host or [None]; [host_str] is [str] on the
    [Host] objects of the configuration. *)
Definition format_host (host_str : string → string) (h : option string) : string :=
  match h with
  | None => "None"
  | Some host => host_str host
  end.

(** The loop [for worker in self.worker_list] of [__str__]. *)
Definition worker_lines (host : string) (ws : list Worker) (output : string)
    : string :=
  foldl (λ output worker,
           if decide (worker_host worker = host)
           then output +:+ "    * " +:+ ext_name worker +:+ " (" +:+
                  (if active worker then "active" else "stopped") +:+ ")" +:+ nl
           else output)
        output ws.

(** The first loop [for host in config.hosts] of [__str__]. *)
Definition workers_part (hs : list string) (ws : list Worker) (output : string)
    : string :=
  foldl (λ output host, worker_lines host ws (output +:+ "- " +:+ host +:+ nl))
        output hs.

(** The loop [for image in self.images[host]] of [__str__]. *)
Definition image_lines (tags : list string) (output : string) : string :=
  foldl (λ output image, output +:+ "    * " +:+ image +:+ nl) output tags.

(** The second loop [for host in config.hosts] of [__str__];
    [self.images[host]] raises [KeyError] on a host without entry. *)
Fixpoint images_part (imgs : gmap string (list string)) (hs : list string)
    (output : string) : Result string :=
  match hs with
  | [] => Ok output
  | host :: hs' =>
      let output := output +:+ "- " +:+ host +:+ nl in
      match imgs !! host with
      | None => Raise KeyError
      | Some tags => images_part imgs hs' (image_lines tags output)
      end
  end.

(** [DockerhoodStatus.__str__] *)
Definition __str__ (host_str : string → string) (config : Config)
    (s : DockerhoodStatus) : Result string :=
  let output := EmptyString in
  let output := output +:+ "LINKER" +:+ nl in
  let output := output +:+ "Linker exists:           "
                  +:+ format_bool (linker_exists s) +:+ nl in
  let output := output +:+ "Linker is running:       "
                  +:+ format_bool (linker_is_running s) +:+ nl +:+ nl in
  let output := output +:+ "SLURM MASTER" +:+ nl in
  let output := output +:+ "Slurm master exists:     "
                  +:+ format_bool (slurm_master_exists s) +:+ nl in
  let output := output +:+ "Slurm master is running: "
                  +:+ format_bool (slurm_master_is_running s) +:+ nl in
  let output := output +:+ "Slurm master on host:    "
                  +:+ format_host host_str (slurm_master_host s) +:+ nl +:+ nl in
  let output := output +:+ "WORKERS" +:+ nl in
  let output := workers_part (hosts config) (worker_list s) output in
  let output := output +:+ nl in
  let output := output +:+ "IMAGES" +:+ nl in
  images_part (images s) (hosts config) output.

(** Two hosts; the master was created on the second and is running there;
    the first holds an image of the project and one of another; a worker
    on each. *)
Definition two_hosts : Config :=
  {| hosts := ["alpha"; "beta"]; project := "dh"; running_linker_host := "alpha" |}.

Definition two_hosts_docker : Docker :=
  {| container_list := λ host,
       Ok (if decide (host = "beta") then ["dh_slurm_master"] else ["dh_linker"]);
     active_container_list := λ host,
       Ok (if decide (host = "beta") then ["dh_slurm_master"] else []);
     image_list := λ host,
       Ok (if decide (host = "alpha") then ["dh_worker:latest"; "ubuntu:16.04"] else []);
     workers :=
       Ok [ {| ext_name := "dh_main_worker001"; int_name := None; queue := "main";
               active := false; worker_host := "beta" |};
            {| ext_name := "dh_main_worker002"; int_name := Some "w2"; queue := "main";
               active := true; worker_host := "alpha" |} ] |}.

(** ** Further definitions: the console waiting for its request *)

(** A loop [while <test on the status of the request>: sleep(0.1)] of the
    console thread. Before each test the other threads perform the
    operations of one element of [env] on the shared world. The result is
    the world as the test that ended the loop saw it, and what is left of
    [env]; [None] if the loop is still going when [env] is used up. *)
Fixpoint wait_while (test : World → bool) (env : list (list Op)) (w : World)
    : option (World * list (list Op)) :=
  match env with
  | [] => None
  | others :: env' =>
      let w := run_ops others w in
      if test w then wait_while test env' w else Some (w, env')
  end.

(** [self._request_handler.get_request_status(request_uuid) == z] *)
Definition status_is (z : Z) (request_uuid : string) (w : World) : bool :=
  bool_decide (status_code <$> get_request_status w request_uuid = Some z).

(** [self._request_handler.get_request_status(request_uuid) in (1, 2)] *)
Definition status_in_1_2 (request_uuid : string) (w : World) : bool :=
  bool_decide (status_code <$> get_request_status w request_uuid
               ∈ [Some 1; Some 2]).

(** The end of [_ask_for_request]: [get_answer] for the message, the test
    of the status against [-1], and [get_answer] for the result; the other
    threads act before each of the three calls. *)
Definition read_result (request_uuid : string) (env : list (list Op))
    (w : World) : option (World * (Z * PyValue)) :=
  match env with
  | others1 :: others2 :: env' =>
      let w := run_ops others1 w in
      let answer := get_answer w request_uuid in
      let w := run_ops others2 w in
      if status_is (-1) request_uuid w
      then Some (w, (-1, PyNone))
      else
        match env' with
        | others3 :: _ =>
            let w := run_ops others3 w in
            Some (w, (3, get_answer w request_uuid))
        | [] => None
        end
  | _ => None
  end.

(** [ConsoleInterface._ask_for_request(action, original_cmd)], without its
    messages: the pair it returns, and the world it leaves. [generated] and
    [now] are what [Request.__init__] reads; [None] if the console is still
    waiting when [env] is used up. *)
Definition _ask_for_request (generated : string) (now : Z) (action : Action)
    (env : list (list Op)) (w : World) : option (World * (Z * PyValue)) :=
  let '(w, request_uuid) := create_request generated now action w in
  match wait_while (status_is 1 request_uuid) env w with
  | None => None
  | Some (w, env) =>
      match wait_while (status_is 2 request_uuid) env w with
      | None => None
      | Some (w, env) => read_result request_uuid env w
      end
  end.

(** [ConsoleInterface.stop_execution], without its messages: it returns
    after the message 'Request failed!', or [exit(0)] raises [SystemExit]
    in the console thread; [None] if the console is still waiting when
    [env] is used up. The action of the request is Python's [exit]. *)
Definition stop_execution (generated : string) (now : Z)
    (env : list (list Op)) (w : World) : option (World * Result unit) :=
  let '(w, request_uuid) := create_request generated now exit_action w in
  match wait_while (status_in_1_2 request_uuid) env w with
  | None => None
  | Some (w, env) =>
      match env with
      | others :: _ =>
          let w := run_ops others w in
          if status_is (-1) request_uuid w
          then Some (w, Ok ())
          else Some (w, Raise SystemExit)
      | [] => None
      end
  end.

(** The request object after the given halves of [execute] have run on the
    object [r0]. *)
Definition object_after (hist : list Phase) (r0 r : Request) : Prop :=
  match hist with
  | [] => r = r0
  | [PhaseBegin] => r = execute_begin r0
  | [PhaseBegin; PhaseTry] => r = (execute r0).1
  | _ => True
  end.

(** After the operations [Q] on the world in which the console has made
    its request, the request is through: unregistered, or run to the end. *)
Definition through (g : string) (now : Z) (act : Action) (w : World)
    (Q : list Op) : Prop :=
  _request_dict (run_ops Q (create_request g now act w).1) !! g = None ∨
  exec_history (next_addr w) Q = [PhaseBegin; PhaseTry].

(** What the console is to be told about a request whose action was run. *)
Definition report (act : Action) : Z * PyValue :=
  match act () with
  | Returns v => (3, v)
  | RaisesSystemExit => (3, PyNone)
  | RaisesError _ => (-1, PyNone)
  end.

(** The main thread takes the console's request and runs it between two
    tests of the console; then nothing else happens. *)
Definition served_env : list (list Op) :=
  [[]; [OpNext; OpExecuteBegin 0]; []; [OpExecuteTry 0]].

Definition idle_env : list (list Op) := replicate 4 [].

(** The reaper sweeps two days after the request was made, the main thread
    being busy elsewhere. *)
Definition swept_env : list (list Op) :=
  [[]; [OpSweep (seconds 172800)]; []; []; []; []].

(** ** Further definitions: the reaper among the other threads *)

Definition with_reaper_world (w : World) (st : Reaper) : Reaper :=
  {| time_passed := time_passed st; world := w; sweep_log := sweep_log st |}.

(** [RequestManager.run] among the other threads: before each of its ticks
    the other threads perform the operations of the first component on the
    shared world; the second component is the tick, as for [run]. *)
Fixpoint run_among (env : list (list Op * (bool * Z))) (st : Reaper)
    : Reaper * LoopCtl :=
  match env with
  | [] => (st, Continue)
  | (others, (stop_flag, now)) :: env' =>
      match run_iteration stop_flag now
              (with_reaper_world (run_ops others (world st)) st) with
      | (st', Continue) => run_among env' st'
      | stopped => stopped
      end
  end.

(** Two submissions, the first taken and executed by the main thread
    between the reaper's ticks; the fourth tick comes two days later, the
    fifth finds the stop flag raised. *)
Definition busy_reaper_env : list (list Op * (bool * Z)) :=
  [([OpCreate "r1" 0 ok_action], (false, seconds 1));
   ([OpNext; OpExecuteBegin 0], (false, seconds 2));
   ([OpExecuteTry 0; OpCreate "r2" (seconds 3) boom_action], (false, seconds 4));
   ([], (false, seconds 172800));
   ([], (true, seconds 172801))].

(** ** Further definitions: the updater when a sleep or a refresh raises *)

(** How the calls of [self._update()] that the thread makes during one of
    its steps end, by cause: [dockerhood_status.update()] raises when a
    Docker engine fails. *)
Definition Refresh : Type := RefreshCause → Result unit.

Definition refresh_ok (refresh : Refresh) : Prop := ∀ c, refresh c = Ok ().

(** [self._update_now = False; self._update(); self._executed = True],
    where the refresh may raise. *)
Definition serve_request_or_raise (refresh : Refresh) (t : UpdaterThread)
    : UpdaterThread * Result unit :=
  let t := with_shared (set_flags false (_executed (shared t)) (_paused (shared t))
                          (shared t)) t in
  match refresh Forced with
  | Raise e => (t, Raise e)
  | Ok _ =>
      let t := _update Forced t in
      (with_shared (set_flags (_update_now (shared t)) true (_paused (shared t))
                      (shared t)) t, Ok ())
  end.

(** [if time_without_update > self._update_time: time_without_update = 0;
    self._update()], where the refresh may raise. *)
Definition timer_refresh_or_raise (refresh : Refresh) (t : UpdaterThread)
    : UpdaterThread * Result unit :=
  if decide (time_without_update t > _update_time (shared t))
  then match refresh Periodic with
       | Raise e => (set_timer 0 t, Raise e)
       | Ok _ => (_update Periodic (set_timer 0 t), Ok ())
       end
  else (t, Ok ()).

(** One step of [StatusUpdater.run] as in [thread_step], with what
    [thread_step] leaves out: [sleep(self._resp)] raises on a negative
    length and a refresh may raise; [run] has no handler, so either ends
    the thread. *)
Definition thread_step_or_raise (stop_flag : bool) (refresh : Refresh)
    (t : UpdaterThread) : UpdaterThread * Result unit :=
  match pc t with
  | StartedHead =>
      (if _paused (shared t) then goto StartedBody t else goto PausedHead t, Ok ())
  | StartedBody =>
      match sleep (_resp (shared t)) with
      | Raise e => (t, Raise e)
      | Ok _ =>
          let t := set_timer (time_without_update t + _resp (shared t)) t in
          if stop_flag then (goto PausedHead t, Ok ())
          else
            match (if _update_now (shared t)
                   then serve_request_or_raise refresh (set_timer 0 t)
                   else (t, Ok ())) with
            | (t, Raise e) => (t, Raise e)
            | (t, Ok _) =>
                match timer_refresh_or_raise refresh t with
                | (t, Raise e) => (t, Raise e)
                | (t, Ok _) => (goto StartedHead t, Ok ())
                end
            end
      end
  | PausedHead =>
      (if _paused (shared t) then goto PausedBody t else goto StopCheck t, Ok ())
  | PausedBody =>
      match sleep (_resp (shared t)) with
      | Raise e => (t, Raise e)
      | Ok _ =>
          if stop_flag then (goto StopCheck t, Ok ())
          else
            match (if _update_now (shared t)
                   then serve_request_or_raise refresh t
                   else (t, Ok ())) with
            | (t, Raise e) => (t, Raise e)
            | (t, Ok _) => (goto PausedHead t, Ok ())
            end
      end
  | StopCheck =>
      (if stop_flag then goto Returned t else goto StartedHead (set_timer 0 t),
       Ok ())
  | Returned => (t, Ok ())
  end.

(** The thread over some steps, the stop flag down; a thread that an
    exception has ended makes no further step. *)
Fixpoint thread_steps_or_raise (steps : list Refresh) (t : UpdaterThread)
    : UpdaterThread * Result unit :=
  match steps with
  | [] => (t, Ok ())
  | refresh :: steps' =>
      match thread_step_or_raise false refresh t with
      | (t', Ok _) => thread_steps_or_raise steps' t'
      | ended => ended
      end
  end.

(** The loop [while not self._executed: sleep(self._resp)] of
    [StatusUpdater.update] and the [self._executed = False] after it, as in
    [update_wait], with what [update_wait] leaves out: the caller's own
    [sleep] raises on a negative length, and the thread may have been ended
    by an exception ([thread] says whether it is still running). During
    each sleep of the caller the thread makes the steps of the next element
    of [sched]. The result is [Ok true] if [update] has returned, [Ok false]
    if it is still polling when [sched] is used up, [Raise e] if it
    raised. *)
Fixpoint update_wait_or_raise (sched : list (list Refresh)) (thread : Result unit)
    (t : UpdaterThread) : UpdaterThread * Result bool :=
  match sched with
  | [] =>
      if _executed (shared t)
      then (with_shared (update_reset (shared t)) t, Ok true)
      else (t, Ok false)
  | steps :: sched' =>
      if _executed (shared t)
      then (with_shared (update_reset (shared t)) t, Ok true)
      else
        match sleep (_resp (shared t)) with
        | Raise e => (t, Raise e)
        | Ok _ =>
            match thread with
            | Raise _ => update_wait_or_raise sched' thread t
            | Ok _ =>
                let '(t', thread') := thread_steps_or_raise steps t in
                update_wait_or_raise sched' thread' t'
            end
        end
  end.

(** [StatusUpdater.update], the thread running when it is called. *)
Definition StatusUpdater_update_or_raise (sched : list (list Refresh))
    (t : UpdaterThread) : UpdaterThread * Result bool :=
  update_wait_or_raise sched (Ok ()) (with_shared (update_request (shared t)) t).

(** The Docker engines answering, and failing. *)
Definition engines_up : Refresh := λ _, Ok ().

Definition engines_down : Refresh := λ _, Raise DockerError.

(** * Properties *)

(** ** Status codes *)

(** The four statuses stand for four different integers, none of which is
    Python's [None]. *)
Lemma status_code_inj s1 s2 : status_code s1 = status_code s2 → s1 = s2.
Proof. by destruct s1, s2. Qed.

(** ** Splitting text into lines *)

Lemma split_on_not_nil sep s : split_on sep s ≠ [].
Proof.
  destruct s as [|c s]; simpl; [done|].
  case_decide; [done|]. by destruct (split_on sep s).
Qed.

Lemma split_on_pieces sep s l :
  l ∈ split_on sep s → sep ∉ String.list_ascii_of_string l.
Proof.
  revert l. induction s as [|c s IH]; simpl; intros l Hl.
  - apply list_elem_of_singleton in Hl as ->. simpl. apply not_elem_of_nil.
  - case_decide as Hc.
    + apply elem_of_cons in Hl as [-> | Hl]; [apply not_elem_of_nil | by apply IH].
    + destruct (split_on sep s) as [|l0 ls] eqn:Hs.
      * apply list_elem_of_singleton in Hl as ->. simpl.
        intros [->|H]%elem_of_cons; [done | by apply not_elem_of_nil in H].
      * apply elem_of_cons in Hl as [-> | Hl].
        -- simpl. intros [->|H]%elem_of_cons; [done|].
           by apply (IH l0); [left|].
        -- apply IH. by right.
Qed.

Lemma split_on_app sep s1 s2 :
  sep ∉ String.list_ascii_of_string s1 →
  split_on sep (s1 +:+ String sep s2) = s1 :: split_on sep s2.
Proof.
  induction s1 as [|c s1 IH]; simpl; intros Hs.
  - by rewrite decide_True.
  - rewrite decide_False; [|intros ->; apply Hs; by left].
    rewrite IH; [done|]. intros H. apply Hs. by right.
Qed.

Lemma traceback_header_single_line : single_line traceback_header.
Proof.
  unfold single_line. rewrite list_elem_of_In.
  vm_compute. intuition discriminate.
Qed.

Lemma traceback_lines_format_exc frames :
  traceback_lines (format_exc frames) = traceback_header :: traceback_lines frames.
Proof.
  unfold traceback_lines, format_exc.
  rewrite split_on_app by apply traceback_header_single_line.
  by rewrite filter_cons_True.
Qed.

Lemma traceback_last_line text line :
  last (traceback_lines text) = Some line →
  last_nonempty_line text line ∧ single_line line.
Proof.
  unfold traceback_lines. intros Hlast.
  pose proof (last_Some_elem_of _ _ Hlast) as Hin.
  apply list_elem_of_filter in Hin as [Hne Hin].
  apply last_filter_Some in Hlast as (pre & post & Hsplit & Hpost).
  split; [|by eapply split_on_pieces].
  exists pre, post. split_and!; [done..|].
  eapply Forall_impl; [exact Hpost|]. simpl. intros l Hl.
  by destruct (decide (l = EmptyString)).
Qed.

(** ** [Request.execute] *)

Lemma execute_returns r v :
  action r () = Returns v →
  execute r = (set_status EXECUTED (set_answer v (execute_begin r)), Ok ()).
Proof. intros H. unfold execute, execute_try. simpl. by rewrite H. Qed.

Lemma execute_system_exit r :
  action r () = RaisesSystemExit →
  execute r = (set_status EXECUTED (execute_begin r), Raise SystemExit).
Proof. intros H. unfold execute, execute_try. simpl. by rewrite H. Qed.

Lemma execute_error r frames :
  action r () = RaisesError frames →
  ∃ line,
    execute r = (set_status ERROR (set_answer (PyStr line) (execute_begin r)), Ok ()) ∧
    last_nonempty_line (format_exc frames) line ∧ single_line line.
Proof.
  intros H. unfold execute, execute_try. simpl. rewrite H.
  destruct (last (traceback_lines (format_exc frames))) as [line|] eqn:Hlast.
  - exists line. split; [done|]. by apply traceback_last_line.
  - apply last_None in Hlast. by rewrite traceback_lines_format_exc in Hlast.
Qed.

(** What [execute] can leave behind: it returns, or it raises [SystemExit]
    with the request marked [EXECUTED]; either way the status is final. *)
Lemma execute_outcomes r :
  (∃ r', execute r = (r', Ok ()) ∧ (status r' = EXECUTED ∨ status r' = ERROR)) ∨
  (∃ r', execute r = (r', Raise SystemExit) ∧ status r' = EXECUTED ∧
         action r () = RaisesSystemExit).
Proof.
  destruct (action r ()) as [v| |frames] eqn:H.
  - left. eexists. split; [by apply execute_returns|]. by left.
  - right. eexists. split; [by apply execute_system_exit|]. done.
  - left. destruct (execute_error _ _ H) as (line & -> & _).
    eexists. split; [done|]. by right.
Qed.

Lemma heap_execute_spec a w :
  heap_execute a w =
    (set_heap (<[a := (execute (heap w a)).1]>
                 (<[a := execute_begin (heap w a)]> (heap w))) w,
     (execute (heap w a)).2).
Proof.
  unfold heap_execute, heap_execute_try, heap_execute_begin, execute. simpl.
  rewrite fn_lookup_insert. by destruct (execute_try _).
Qed.

Lemma heap_execute_collections a w :
  _request_dict (heap_execute a w).1 = _request_dict w ∧
  _request_deque (heap_execute a w).1 = _request_deque w.
Proof. by rewrite heap_execute_spec. Qed.

Lemma heap_execute_lookup a w :
  heap (heap_execute a w).1 a = (execute (heap w a)).1.
Proof. rewrite heap_execute_spec. simpl. by rewrite fn_lookup_insert. Qed.

(** ** [get_next_request] *)

Lemma get_next_request_empty w :
  _request_deque w = [] → get_next_request w = (w, Ok None).
Proof. intros H. unfold get_next_request. by rewrite H. Qed.

Lemma get_next_request_cases w :
  fifo_in_map w →
  (_request_deque w = [] ∧ get_next_request w = (w, Ok None)) ∨
  (∃ u rest a,
      _request_deque w = u :: rest ∧ _request_dict w !! u = Some a ∧
      get_next_request w = (set_collections (_request_dict w) rest w, Ok (Some a))).
Proof.
  unfold fifo_in_map, get_next_request. intros Hok.
  destruct (_request_deque w) as [|u rest]; [by left|right].
  apply Forall_cons in Hok as [[a Ha] _].
  exists u, rest, a. by rewrite Ha.
Qed.

Lemma get_next_request_fifo_in_map w :
  fifo_in_map w → fifo_in_map (get_next_request w).1.
Proof.
  intros Hok. destruct (get_next_request_cases w Hok) as
    [[_ ->] | (u & rest & a & Hq & _ & ->)]; [done|].
  unfold fifo_in_map in *. simpl. rewrite Hq in Hok.
  by apply Forall_cons in Hok as [_ ?].
Qed.

(** ** [DockerhoodStatus] *)

Lemma update_images_master config d hs s :
  slurm_master_exists (DockerhoodStatus.update_images config d hs s).1
    = slurm_master_exists s ∧
  slurm_master_host (DockerhoodStatus.update_images config d hs s).1
    = slurm_master_host s.
Proof.
  revert s. induction hs as [|host hs IH]; intros s; simpl; [done|].
  destruct (image_list d host) as [tags|e]; simpl; [|done].
  by destruct (IH (DockerhoodStatus.set_images
                     (<[host := filter (λ i, String.prefix (project config +:+ "_") i = true) tags]>
                        (images s)) s)) as [-> ->].
Qed.

Lemma update_master_fields config d s :
  master_fields_agree s →
  master_fields_agree (DockerhoodStatus.update config d s).1.
Proof.
  unfold master_fields_agree, DockerhoodStatus.update. intros Hs.
  destruct (container_checks.linker_exists config d); simpl; [|done].
  destruct (container_checks.linker_is_running config d); simpl; [|done].
  destruct (container_checks.slurm_master_host config d) as [h|]; simpl; [|done].
  destruct (container_checks.slurm_master_is_running config d); simpl;
    [|by destruct h].
  destruct (container_checks.worker_list d) as [ws|]; simpl; [|by destruct h].
  match goal with
  | |- context [DockerhoodStatus.update_images config d (hosts config) ?s0] =>
      destruct (update_images_master config d (hosts config) s0) as [-> ->]
  end.
  by destruct h.
Qed.

(** After a call of [update] that got as far as looking for the master,
    the host field holds what [slurm_master_host()] returned. *)
Lemma update_reads_master_host config d s h :
  (∃ le, container_checks.linker_exists config d = Ok le) →
  (∃ lr, container_checks.linker_is_running config d = Ok lr) →
  container_checks.slurm_master_host config d = Ok h →
  slurm_master_host (DockerhoodStatus.update config d s).1 = h.
Proof.
  intros [le Hle] [lr Hlr] Hh. unfold DockerhoodStatus.update.
  rewrite Hle, Hlr, Hh. simpl.
  destruct (container_checks.slurm_master_is_running config d); simpl;
    [|by destruct h].
  destruct (container_checks.worker_list d) as [ws|]; simpl; [|by destruct h].
  match goal with
  | |- context [DockerhoodStatus.update_images config d (hosts config) ?s0] =>
      destruct (update_images_master config d (hosts config) s0) as [_ ->]
  end.
  by destruct h.
Qed.

(** C10. After the construction of a [DockerhoodStatus] and after any
    number of calls of [update], each against any answers of the Docker
    engines (raising ones included), [slurm_master_exists] is true exactly
    when [slurm_master_host] is not [None]. *)
Theorem slurm_master_fields_agree (config : Config) (d0 : Docker) (ds : list Docker) :
  master_fields_agree (status_after config d0 ds).
Proof.
  unfold status_after.
  induction ds as [|d ds IH] using rev_ind.
  - simpl. apply update_master_fields. unfold master_fields_agree. simpl.
    naive_solver.
  - rewrite foldl_snoc. by apply update_master_fields.
Qed.

(** ** The sweep *)

Lemma too_old_delete now disc h d u v :
  u ≠ v → too_old now disc h (delete u d) v ↔ too_old now disc h d v.
Proof. intros Hne. unfold too_old. by rewrite lookup_delete_ne. Qed.

(** The inner loop of the sweep, on a FIFO without repetition whose ids are
    all registered: it ends normally; it unregisters exactly the FIFO's
    requests that are too old; it keeps the others, in their order. *)
Lemma discard_old_spec now disc h old : ∀ d q,
  NoDup old →
  Forall (λ u, is_Some (d !! u)) old →
  ∃ d' kept,
    discard_old now disc h old d q = (d', q ++ kept, Ok ()) ∧
    (∀ u, u ∈ old → too_old now disc h d u → d' !! u = None) ∧
    (∀ u, ¬ (u ∈ old ∧ too_old now disc h d u) → d' !! u = d !! u) ∧
    kept `sublist_of` old ∧
    (∀ u, u ∈ kept ↔ u ∈ old ∧ ¬ too_old now disc h d u).
Proof.
  induction old as [|u rest IH]; intros d q Hnd Hin; simpl.
  - exists d, []. rewrite app_nil_r. split_and!; try done.
    + intros u Hu. by apply not_elem_of_nil in Hu.
    + intros u. split; [intros Hu; by apply not_elem_of_nil in Hu | by intros [Hu%not_elem_of_nil _]].
  - apply NoDup_cons in Hnd as [Hu Hnd].
    apply Forall_cons in Hin as [[a Ha] Hin].
    rewrite Ha. case_decide as Hage.
    + assert (Hin' : Forall (λ v, is_Some (delete u d !! v)) rest).
      { apply Forall_forall. intros v Hv.
        rewrite lookup_delete_ne by (intros ->; done).
        by eapply Forall_forall in Hin. }
      destruct (IH (delete u d) q Hnd Hin') as (d' & kept & -> & Hdel & Hkeep & Hsub & Hkept).
      assert (Hold : too_old now disc h d u) by (unfold too_old; by rewrite Ha).
      exists d', kept. split_and!; [done| | |by apply sublist_cons|].
      * intros v [->|Hv]%elem_of_cons Hv'.
        -- rewrite Hkeep by (intros [? _]; done). apply lookup_delete_eq.
        -- apply Hdel; [done|]. apply too_old_delete; [|done]. by intros ->.
      * intros v Hv. destruct (decide (v = u)) as [->|Hne].
        { exfalso. apply Hv. split; [by left | done]. }
        rewrite Hkeep, lookup_delete_ne; [done..|].
        intros [Hv1 Hv2]. apply Hv. split; [by right|].
        by apply too_old_delete in Hv2.
      * intros v. rewrite Hkept, elem_of_cons. split.
        -- intros [Hv Hv']. split; [by right|].
           rewrite <- too_old_delete; [done|]. by intros ->.
        -- intros [[->|Hv] Hv']; [done|]. split; [done|].
           rewrite too_old_delete; [done|]. by intros ->.
    + destruct (IH d (q ++ [u]) Hnd Hin) as (d' & kept & -> & Hdel & Hkeep & Hsub & Hkept).
      assert (Hyoung : ¬ too_old now disc h d u) by (unfold too_old; by rewrite Ha).
      exists d', (u :: kept). split_and!.
      * by rewrite <- (assoc_L (++)).
      * intros v [->|Hv]%elem_of_cons Hv'; [done | by apply Hdel].
      * intros v Hv. apply Hkeep. intros [Hv1 Hv2]. apply Hv. split; [by right|done].
      * by apply sublist_skip.
      * intros v. rewrite !elem_of_cons, Hkept.
        split; [intros [->|[? ?]]; auto | intros [[->|?] ?]; auto].
Qed.

(** Whatever the FIFO holds, the inner loop leaves alone every id that is
    not in it. *)
Lemma discard_old_outside now disc h old : ∀ d q u,
  u ∉ old → (discard_old now disc h old d q).1.1 !! u = d !! u.
Proof.
  induction old as [|v rest IH]; intros d q u Hu; simpl; [done|].
  apply not_elem_of_cons in Hu as [Hne Hu].
  destruct (d !! v) as [a|]; [|done].
  case_decide; rewrite IH by done; [|done].
  by rewrite lookup_delete_ne.
Qed.

Lemma sweep_spec now w :
  manager_ok w →
  ∃ d' kept,
    sweep now w = (set_collections d' kept w, Ok ()) ∧
    (∀ u, u ∈ _request_deque w →
          too_old now (discard_time w) (heap w) (_request_dict w) u →
          d' !! u = None) ∧
    (∀ u, ¬ (u ∈ _request_deque w ∧
             too_old now (discard_time w) (heap w) (_request_dict w) u) →
          d' !! u = _request_dict w !! u) ∧
    kept `sublist_of` _request_deque w ∧
    (∀ u, u ∈ kept ↔
          u ∈ _request_deque w ∧
          ¬ too_old now (discard_time w) (heap w) (_request_dict w) u).
Proof.
  intros [Hin Hnd]. unfold sweep.
  destruct (discard_old_spec now (discard_time w) (heap w) _
              (_request_dict w) [] Hnd Hin) as (d' & kept & -> & H).
  by exists d', kept.
Qed.

Lemma sweep_manager_ok now w :
  manager_ok w → (sweep now w).2 = Ok () ∧ manager_ok (sweep now w).1.
Proof.
  intros Hok.
  destruct (sweep_spec now w Hok) as (d' & kept & -> & Hdel & Hkeep & Hsub & Hkept).
  destruct Hok as [Hin Hnd]. split; [done|]. split; simpl.
  - unfold fifo_in_map. simpl. apply Forall_forall. intros u Hu.
    apply Hkept in Hu as [Hu Hyoung].
    rewrite Hkeep by (intros [_ ?]; done).
    by eapply Forall_forall in Hin.
  - by eapply sublist_NoDup.
Qed.

(** A sweep only ever unregisters: what is registered afterwards was
    registered before, under the same reference. *)
Lemma sweep_lookup_Some now w u a :
  _request_dict (sweep now w).1 !! u = Some a → _request_dict w !! u = Some a.
Proof.
  unfold sweep.
  generalize (_request_deque w), (_request_dict w), (@nil string).
  intros old. induction old as [|v rest IH]; intros d q; simpl; [done|].
  destruct (d !! v) as [b|] eqn:Hv; simpl; [|done].
  case_decide as Hage.
  - intros H. specialize (IH _ _ H).
    destruct (decide (v = u)) as [->|Hne].
    + by rewrite lookup_delete_eq in IH.
    + by rewrite lookup_delete_ne in IH.
  - apply IH.
Qed.

Lemma sweep_heap now w : heap (sweep now w).1 = heap w ∧ next_addr (sweep now w).1 = next_addr w.
Proof. unfold sweep. by destruct (discard_old _ _ _ _ _ _) as [[d q] res]. Qed.

(** Among the requests still in the FIFO, a sweep unregisters exactly those
    older than [discard_time]. *)
Lemma sweep_evicts_old_queued now w u a :
  manager_ok w →
  u ∈ _request_deque w →
  _request_dict w !! u = Some a →
  _request_dict (sweep now w).1 !! u = None ↔ age now (heap w a) > discard_time w.
Proof.
  intros Hok Hu Ha.
  destruct (sweep_spec now w Hok) as (d' & kept & -> & Hdel & Hkeep & _). simpl.
  assert (Hold : too_old now (discard_time w) (heap w) (_request_dict w) u
                 ↔ age now (heap w a) > discard_time w)
    by (unfold too_old; by rewrite Ha).
  split.
  - intros Hnone. apply Hold.
    destruct (decide (age now (heap w a) > discard_time w)) as [?|Hyoung];
      [by apply Hold|].
    rewrite Hkeep in Hnone by (rewrite Hold; by intros [_ ?]). congruence.
  - intros Hage. apply Hdel; [done | by apply Hold].
Qed.

(** C1 (where the code departs from the claim). A sweep leaves every
    request that is no longer in the FIFO registered, whatever its age:
    [status] and [answer] give for it after the sweep what they gave
    before. *)
Theorem sweep_spares_dequeued (now : Z) (w : World) (u : string) :
  u ∉ _request_deque w →
  get_request_status (sweep now w).1 u = get_request_status w u ∧
  get_answer (sweep now w).1 u = get_answer w u.
Proof.
  intros Hu. unfold get_request_status, get_answer.
  destruct (sweep_heap now w) as [-> _].
  unfold sweep.
  pose proof (discard_old_outside now (discard_time w) (heap w)
                (_request_deque w) (_request_dict w) [] u Hu) as Hout.
  destruct (discard_old _ _ _ _ _ _) as [[d q] res]. simpl in *.
  by rewrite Hout.
Qed.

Lemma sweep_spares_dequeued_witness :
  ("r1" ∉ _request_deque world_after_execution) ∧
  (age (seconds 172800) (heap world_after_execution 0%nat)
     > discard_time world_after_execution) ∧
  get_request_status (sweep (seconds 172800) world_after_execution).1 "r1"
    = Some EXECUTED ∧
  get_answer (sweep (seconds 172800) world_after_execution).1 "r1" = PyStr "ok".
Proof.
  assert (Hout : "r1" ∉ _request_deque world_after_execution)
    by apply not_elem_of_nil.
  split; [exact Hout|]. split; [reflexivity|].
  destruct (sweep_spares_dequeued (seconds 172800) world_after_execution "r1" Hout)
    as [-> ->].
  split; reflexivity.
Defined.

(** ** The reaper's loop *)

Lemma run_app env1 env2 st :
  run (env1 ++ env2) st =
    match run env1 st with
    | (st', Continue) => run env2 st'
    | stopped => stopped
    end.
Proof.
  revert st. induction env1 as [|[stop now] env1 IH]; intros st; simpl.
  - done.
  - destruct (run_iteration stop now st) as [st' []]; [apply IH|done..].
Qed.

(** Once [time_passed] has reached an hour, a tick with the stop flag down
    sweeps (here on an empty FIFO), and [time_passed] keeps growing. *)
Lemma run_iteration_late now st :
  0 ≤ responsiveness (world st) →
  seconds 3600 ≤ time_passed st + responsiveness (world st) →
  _request_deque (world st) = [] →
  run_iteration false now st =
    ({| time_passed := time_passed st + responsiveness (world st);
        world := set_collections (_request_dict (world st)) [] (world st);
        sweep_log := (time_passed st + responsiveness (world st)) :: sweep_log st |},
     Continue).
Proof.
  intros Hresp Hlate Hq. unfold run_iteration, sleep.
  rewrite !decide_False by lia. unfold sweep. by rewrite Hq.
Qed.

Lemma reaper_first_hour now :
  run (replicate ticks_per_hour (false, now)) (Reaper_start fresh_world) =
    ({| time_passed := seconds 3600; world := fresh_world;
        sweep_log := [seconds 3600] |}, Continue).
Proof. by vm_compute. Qed.

Lemma reaper_later now (n : nat) :
  run (replicate (ticks_per_hour + n) (false, now)) (Reaper_start fresh_world) =
    ({| time_passed := seconds 3600 + Z.of_nat n * half_second;
        world := fresh_world;
        sweep_log := sweeps_every_tick n |}, Continue).
Proof.
  induction n as [|n IH].
  - rewrite Nat.add_0_r, reaper_first_hour. done.
  - replace (ticks_per_hour + S n)%nat with ((ticks_per_hour + n) + 1)%nat by lia.
    rewrite replicate_add, run_app, IH. cbn [replicate run].
    rewrite run_iteration_late; simpl;
      [|unfold half_second; lia|unfold seconds, half_second; lia|done].
    f_equal. unfold sweeps_every_tick. f_equal.
    + unfold half_second. lia.
    + rewrite (seq_S (S n)), reverse_app. simpl.
      f_equal. unfold half_second. lia.
Qed.

(** C7 (where the code departs from the claim). With the default
    responsiveness of half a second the first sweep comes after 7200 ticks,
    one hour; from then on every tick sweeps: after [n] more ticks the log
    holds [n + 1] sweeps, each half a second of accumulated sleep after the
    one before, because [time_passed] is never set back. *)
Theorem sweep_on_every_tick_after_first_hour (n : nat) (now : Z) :
  time_passed (reaper_after (ticks_per_hour + n) now)
    = seconds 3600 + Z.of_nat n * half_second ∧
  sweep_log (reaper_after (ticks_per_hour + n) now) = sweeps_every_tick n ∧
  length (sweep_log (reaper_after (ticks_per_hour + n) now)) = S n.
Proof.
  unfold reaper_after. rewrite reaper_later. simpl.
  split_and!; [done..|].
  unfold sweeps_every_tick. by rewrite length_fmap, length_reverse, length_seq.
Qed.

Example two_sweeps_half_a_second_apart :
  sweep_log (reaper_after (ticks_per_hour + 1) 0)
    = [seconds 3600 + half_second; seconds 3600].
Proof. by vm_compute. Qed.

(** ** The updater's loop *)

Lemma updater_run_app es1 es2 t :
  updater_run (es1 ++ es2) t = updater_run es2 (updater_run es1 t).
Proof. apply foldl_app. Qed.

(** While nobody has paused the updater, its thread only moves between the
    three tests of [run]: it never enters a loop body, so it neither sleeps
    nor refreshes. *)
Lemma active_event_spins e t :
  active_event e →
  _paused (shared t) = false → at_test (pc t) →
  _paused (shared (updater_event e t)) = false ∧
  at_test (pc (updater_event e t)) ∧
  refreshes (updater_event e t) = refreshes t.
Proof.
  intros He Hp Hpc. destruct e as [stop| | | |]; simpl in *; try done.
  subst stop. unfold thread_step.
  destruct (pc t); try done; rewrite ?Hp; simpl; by rewrite ?Hp.
Qed.

(** C2 (where the code departs from the claim). From the construction of
    the updater on, for as long as no thread pauses it and the stop flag is
    down, the loop of [run] performs no refresh at all, whatever the
    intervals: it goes round the tests of [run] without ever reaching a
    [sleep] or [_update]. *)
Theorem active_updater_never_refreshes
    (update_time resp : option Z) (es : list UpdaterEvent) :
  Forall active_event es →
  let t := updater_run es
             (UpdaterThread_start (StatusUpdater_init update_time resp)) in
  _paused (shared t) = false ∧ at_test (pc t) ∧ refreshes t = [].
Proof.
  induction es as [|e es IH] using rev_ind; intros Hes; [done|].
  apply Forall_app in Hes as [Hes [He _]%Forall_cons].
  simpl in *. rewrite updater_run_app. simpl.
  destruct (IH Hes) as (Hp & Hpc & Hr).
  destruct (active_event_spins e _ He Hp Hpc) as (? & ? & Hr').
  split_and!; [done..|]. by rewrite Hr'.
Qed.

Lemma active_updater_never_refreshes_witness :
  Forall active_event (replicate 1000 (Step false)) ∧
  refreshes (updater_run (replicate 1000 (Step false))
               (UpdaterThread_start (StatusUpdater_init None None))) = [].
Proof.
  assert (H : Forall active_event (replicate 1000 (Step false)))
    by (apply Forall_replicate; reflexivity).
  split; [exact H|].
  apply (active_updater_never_refreshes None None _ H).
Defined.

(** A paused updater with no request pending: twenty-two steps, that is
    eleven turns of the first loop of [run], bring one refresh by the timer
    and leave everything else as it was. *)
Lemma paused_period l :
  updater_run (replicate 22 (Step false))
    {| shared := pause fresh_updater; time_without_update := 0;
       pc := StartedHead; refreshes := l |} =
    {| shared := pause fresh_updater; time_without_update := 0;
       pc := StartedHead; refreshes := Periodic :: l |}.
Proof. by vm_compute. Qed.

Lemma paused_updater_periods (k : nat) :
  paused_updater_after (22 * k) =
    {| shared := pause fresh_updater; time_without_update := 0;
       pc := StartedHead; refreshes := replicate k Periodic |}.
Proof.
  unfold paused_updater_after. induction k as [|k IH]; [done|].
  replace (22 * S k)%nat with (22 * k + 22)%nat by lia.
  rewrite replicate_add, app_comm_cons, updater_run_app, IH.
  apply paused_period.
Qed.

(** C3 (where the code departs from the claim). A paused updater on which
    nobody calls [update]: every eleven ticks of half a second, when the
    timer has run past the five seconds of [_update_time], the first loop
    of [run] refreshes the status; after [22 * k] steps (eleven loop tests
    and eleven loop bodies per period) the log holds [k] refreshes, all by
    the timer, with [_paused] still set and [_update_now] never set. *)
Theorem paused_updater_refreshes_by_timer (k : nat) :
  _paused (shared (paused_updater_after (22 * k))) = true ∧
  _update_now (shared (paused_updater_after (22 * k))) = false ∧
  refreshes (paused_updater_after (22 * k)) = replicate k Periodic.
Proof. by rewrite paused_updater_periods. Qed.

Example first_timer_refresh_while_paused :
  refreshes (paused_updater_after 21) = [] ∧
  time_without_update (paused_updater_after 21) = seconds 5 ∧
  refreshes (paused_updater_after 22) = [Periodic].
Proof. by vm_compute. Qed.

(** ** Histories *)

Lemma run_ops_app ops1 ops2 w :
  run_ops (ops1 ++ ops2) w = run_ops ops2 (run_ops ops1 w).
Proof. apply foldl_app. Qed.

Lemma run_ops_snoc ops op w :
  run_ops (ops ++ [op]) w = apply_op op (run_ops ops w).
Proof. by rewrite run_ops_app. Qed.

Lemma issued_app ops1 ops2 : issued (ops1 ++ ops2) = issued ops1 ++ issued ops2.
Proof. apply omap_app. Qed.

Lemma exec_history_app a ops1 ops2 :
  exec_history a (ops1 ++ ops2) = exec_history a ops1 ++ exec_history a ops2.
Proof. apply omap_app. Qed.

Lemma create_request_fifo_in_map g now act w :
  fifo_in_map w → fifo_in_map (create_request g now act w).1.
Proof.
  unfold fifo_in_map. simpl. intros Hin. apply Forall_app. split.
  - eapply Forall_impl; [exact Hin|]. simpl. intros u [a Hu].
    destruct (decide (g = u)) as [->|Hne].
    + rewrite lookup_insert_eq. by eexists.
    + rewrite lookup_insert_ne by done. by eexists.
  - apply Forall_singleton. rewrite lookup_insert_eq. by eexists.
Qed.

Lemma create_request_manager_ok g now act w :
  manager_ok w → _request_dict w !! g = None →
  manager_ok (create_request g now act w).1.
Proof.
  intros [Hin Hnd] Hg. split; [by apply create_request_fifo_in_map|].
  simpl. apply NoDup_app. split_and!; [done| |apply NoDup_singleton].
  intros u Hu ->%list_elem_of_singleton.
  eapply Forall_forall in Hin; [|exact Hu]. rewrite Hg in Hin. by destruct Hin.
Qed.

Lemma get_next_request_collections w :
  _request_dict (get_next_request w).1 = _request_dict w ∧
  _request_deque (get_next_request w).1 = tail (_request_deque w) ∧
  heap (get_next_request w).1 = heap w ∧
  next_addr (get_next_request w).1 = next_addr w.
Proof.
  unfold get_next_request.
  destruct (_request_deque w) as [|u rest] eqn:Hq; simpl; [by rewrite Hq|].
  by destruct (_request_dict w !! u).
Qed.

Lemma get_next_request_manager_ok w :
  manager_ok w → manager_ok (get_next_request w).1.
Proof.
  intros [Hin Hnd]. split; [by apply get_next_request_fifo_in_map|].
  destruct (get_next_request_collections w) as (_ & -> & _).
  destruct (_request_deque w); [done|]. by apply NoDup_cons in Hnd as [_ ?].
Qed.

(** Every operation keeps the FIFO within the map; only a sweep needs the
    FIFO to be free of repetitions for that. *)
Lemma apply_op_fifo_in_map op w :
  manager_ok w → fifo_in_map (apply_op op w).
Proof.
  intros Hok. destruct op as [g now act| |now|a|a]; simpl.
  - apply create_request_fifo_in_map, Hok.
  - apply get_next_request_fifo_in_map, Hok.
  - apply sweep_manager_ok, Hok.
  - apply Hok.
  - unfold heap_execute_try. destruct (execute_try _). apply Hok.
Qed.

Lemma reached_init resp discard : reached [] (RequestManager_init resp discard).
Proof.
  split_and!; [done| |split; [apply Forall_nil_2 | apply NoDup_nil_2]].
  intros u a. simpl. by rewrite lookup_empty.
Qed.

Lemma reached_step ops op w :
  NoDup (issued (ops ++ [op])) →
  reached ops w → reached (ops ++ [op]) (apply_op op w).
Proof.
  unfold reached. rewrite !issued_app. intros Hnd (Hnext & Hdict & Hok).
  destruct op as [g now act| |now|a|a]; simpl in *.
  - apply NoDup_app in Hnd as (_ & Hfresh & _).
    assert (Hg : _request_dict w !! g = None).
    { destruct (_request_dict w !! g) as [a|] eqn:Hg; [|done].
      destruct (Hdict _ _ Hg) as [_ Hin]. exfalso.
      apply (Hfresh _ Hin). by left. }
    split_and!.
    + rewrite length_app. simpl. lia.
    + intros u a. destruct (decide (g = u)) as [->|Hne].
      * rewrite lookup_insert_eq. intros [= <-]. split; [lia|].
        apply elem_of_app. right. by left.
      * rewrite lookup_insert_ne by done. intros Hu.
        destruct (Hdict _ _ Hu). split; [lia|]. apply elem_of_app. by left.
    + by apply create_request_manager_ok.
  - rewrite app_nil_r.
    destruct (get_next_request_collections w) as (Hd & _ & _ & Hn).
    split_and!; [by rewrite Hn| |by apply get_next_request_manager_ok].
    rewrite Hd, Hn. apply Hdict.
  - rewrite app_nil_r. destruct (sweep_heap now w) as [_ Hn].
    split_and!; [by rewrite Hn| |by apply sweep_manager_ok].
    rewrite Hn. intros u a Hu. apply Hdict. by eapply sweep_lookup_Some.
  - rewrite app_nil_r. by split_and!.
  - rewrite app_nil_r. unfold heap_execute_try.
    destruct (execute_try _). by split_and!.
Qed.

Lemma reached_run resp discard ops :
  NoDup (issued ops) →
  reached ops (run_ops ops (RequestManager_init resp discard)).
Proof.
  induction ops as [|op ops IH] using rev_ind; intros Hnd.
  - apply reached_init.
  - rewrite run_ops_snoc. apply reached_step; [done|].
    apply IH. rewrite issued_app in Hnd. by apply NoDup_app in Hnd as [? _].
Qed.

(** ** The FIFO and the map *)

(** C9 (amended). After any sequence of operations on a fresh manager
    (submissions with uuids that do not repeat, [get_next_request], sweeps,
    executions), every id in the FIFO has an entry in the map and the FIFO
    holds no id twice; so whatever the next operation, an id that it
    removes from the map is not in the FIFO afterwards. [get_next_request]
    and the sweep end without [KeyError]. [get_next_request] removes the
    head of the FIFO and leaves the map as it is. *)
Theorem fifo_within_map (resp discard : option Z) (ops : list Op) :
  NoDup (issued ops) →
  let w := run_ops ops (RequestManager_init resp discard) in
  manager_ok w ∧
  (∀ op u, is_Some (_request_dict w !! u) →
           _request_dict (apply_op op w) !! u = None →
           u ∉ _request_deque (apply_op op w)) ∧
  (∃ o, (get_next_request w).2 = Ok o) ∧
  (∀ now, (sweep now w).2 = Ok ()) ∧
  _request_dict (get_next_request w).1 = _request_dict w ∧
  _request_deque (get_next_request w).1 = tail (_request_deque w).
Proof.
  intros Hnd w. destruct (reached_run resp discard ops Hnd) as (_ & _ & Hok).
  fold w in Hok. split_and!.
  - done.
  - intros op u _ Hnone Hu.
    pose proof (apply_op_fifo_in_map op w Hok) as Hin.
    eapply Forall_forall in Hin; [|exact Hu]. rewrite Hnone in Hin.
    by destruct Hin.
  - destruct (get_next_request_cases w (proj1 Hok)) as
      [[_ ->] | (? & ? & a & _ & _ & ->)]; by eexists.
  - intros now. by apply sweep_manager_ok.
  - apply get_next_request_collections.
  - apply get_next_request_collections.
Qed.

Lemma fifo_within_map_witness :
  NoDup (issued sample_ops) ∧
  manager_ok (run_ops sample_ops (RequestManager_init None None)) ∧
  _request_deque (run_ops sample_ops (RequestManager_init None None)) = [].
Proof.
  assert (Hnd : NoDup (issued sample_ops))
    by (apply (bool_decide_unpack _); by vm_compute).
  split; [exact Hnd|]. split; [|reflexivity].
  apply (fifo_within_map None None sample_ops Hnd).
Defined.

(** C9 as stated fails: [get_next_request] takes "r1" out of the FIFO and
    leaves it in the map, where [status] and [answer] find it. *)
Lemma get_next_request_keeps_map_entry :
  ¬ removal_coupled (world_with ok_action)
      (get_next_request (world_with ok_action)).1.
Proof.
  intros Hcoupled. destruct (Hcoupled "r1") as [_ Hfifo].
  assert (Hgone : _request_dict (get_next_request (world_with ok_action)).1 !! "r1"
                  = None).
  { apply Hfifo; [by left | apply not_elem_of_nil]. }
  by vm_compute in Hgone.
Qed.

(** ** [get_request_status] and [get_answer] *)

(** An id is registered only if [generate_uuid] once handed it out. *)
Lemma registered_was_issued resp discard ops u a :
  _request_dict (run_ops ops (RequestManager_init resp discard)) !! u = Some a →
  u ∈ issued ops.
Proof.
  revert a. induction ops as [|op ops IH] using rev_ind; intros a.
  - simpl. by rewrite lookup_empty.
  - rewrite run_ops_snoc, issued_app, elem_of_app.
    destruct op as [g now act| |now|b|b]; simpl.
    + destruct (decide (g = u)) as [->|Hne].
      * intros _. right. by left.
      * rewrite lookup_insert_ne by done. intros Hu. left. by eapply IH.
    + destruct (get_next_request_collections
                  (run_ops ops (RequestManager_init resp discard))) as (-> & _).
      intros Hu. left. by eapply IH.
    + intros Hu%sweep_lookup_Some. left. by eapply IH.
    + intros Hu. left. by eapply IH.
    + unfold heap_execute_try. destruct (execute_try _). simpl.
      intros Hu. left. by eapply IH.
Qed.

(** C8 (amended). After any sequence of operations on a fresh manager,
    for an id that was never issued, and for an id that a sweep has just
    unregistered, [get_request_status] returns [None] and [get_answer]
    returns [None]; for a registered id they return the current status and
    answer of the request object; and [get_request_status] returns [None]
    for unregistered ids only. *)
Theorem lookups_by_id (resp discard : option Z) (ops : list Op) (u : string) :
  let w := run_ops ops (RequestManager_init resp discard) in
  (u ∉ issued ops → get_request_status w u = None ∧ get_answer w u = PyNone) ∧
  (∀ now, _request_dict (sweep now w).1 !! u = None →
          get_request_status (sweep now w).1 u = None ∧
          get_answer (sweep now w).1 u = PyNone) ∧
  (∀ a, _request_dict w !! u = Some a →
        get_request_status w u = Some (status (heap w a)) ∧
        get_answer w u = answer (heap w a)) ∧
  (get_request_status w u = None ↔ _request_dict w !! u = None).
Proof.
  intros w. unfold get_request_status, get_answer. split_and!.
  - intros Hu. destruct (_request_dict w !! u) as [a|] eqn:Ha; [|done].
    by apply registered_was_issued in Ha.
  - intros now ->. done.
  - intros a ->. done.
  - by destruct (_request_dict w !! u).
Qed.

Example lookups_after_sample_ops :
  get_request_status (run_ops sample_ops fresh_world) "r1" = Some PENDING ∧
  get_answer (run_ops sample_ops fresh_world) "r1" = PyNone ∧
  get_request_status (run_ops sample_ops fresh_world) "r2" = None ∧
  get_answer (run_ops sample_ops fresh_world) "r2" = PyNone ∧
  get_request_status (run_ops sample_ops fresh_world) "r3" = None.
Proof. by vm_compute. Qed.

(** C8 as stated fails: a registered request that has not been executed
    answers [None], the value given for unknown ids. *)
Lemma answer_none_for_known_request :
  ¬ answer_none_means_unknown (world_with ok_action).
Proof.
  intros Hunknown.
  assert (Hgone : _request_dict (world_with ok_action) !! "r1" = None)
    by (by apply Hunknown).
  by vm_compute in Hgone.
Qed.

(** ** The life of a request *)

Lemma at_most_once_cases a ops :
  executed_at_most_once a ops →
  exec_history a ops = [] ∨ exec_history a ops = [PhaseBegin] ∨
  exec_history a ops = [PhaseBegin; PhaseTry].
Proof.
  unfold executed_at_most_once. intros [k Hk].
  destruct (exec_history a ops) as [|x [|y [|z l]]]; simplify_eq/=; auto.
Qed.

Lemma at_most_once_prefix a ops1 ops2 :
  executed_at_most_once a (ops1 ++ ops2) → executed_at_most_once a ops1.
Proof.
  unfold executed_at_most_once. rewrite exec_history_app. apply prefix_app_l.
Qed.

Lemma calls_on_objects_app n ops1 ops2 :
  calls_on_objects n (ops1 ++ ops2) ↔
  calls_on_objects n ops1 ∧ calls_on_objects (n + length (issued ops1)) ops2.
Proof.
  revert n. induction ops1 as [|op ops1 IH]; intros n; simpl.
  - rewrite Nat.add_0_r. tauto.
  - destruct op; simpl; rewrite ?IH; try tauto.
    replace (S n + length (issued ops1))%nat
      with (n + S (length (issued ops1)))%nat by lia.
    done.
Qed.

(** No half of [execute] has run on an object that does not exist yet. *)
Lemma exec_history_unallocated ops : ∀ n a,
  calls_on_objects n ops → (n + length (issued ops) ≤ a)%nat →
  exec_history a ops = [].
Proof.
  induction ops as [|op ops IH]; intros n a Hcalls Ha; [done|].
  destruct op as [g now act| |now|b|b]; simpl in *.
  - apply (IH (S n)); [done|lia].
  - by apply (IH n).
  - by apply (IH n).
  - destruct Hcalls as [Hb Hcalls]. rewrite decide_False by lia. by apply (IH n).
  - destruct Hcalls as [Hb Hcalls]. rewrite decide_False by lia. by apply (IH n).
Qed.

Lemma apply_op_next_addr op w :
  next_addr (apply_op op w) = (next_addr w + length (issued [op]))%nat.
Proof.
  destruct op as [g now act| |now|a|a]; simpl.
  - lia.
  - destruct (get_next_request_collections w) as (_ & _ & _ & ->). lia.
  - destruct (sweep_heap now w) as [_ ->]. lia.
  - lia.
  - unfold heap_execute_try. destruct (execute_try _). simpl. lia.
Qed.

(** An operation other than a half of [execute] on the object at [a]
    leaves that object as it is. *)
Lemma apply_op_frame op w a :
  (a < next_addr w)%nat → exec_history a [op] = [] →
  heap (apply_op op w) a = heap w a.
Proof.
  intros Ha Hhist. destruct op as [g now act| |now|b|b]; simpl in *.
  - rewrite fn_lookup_insert_ne; [done|lia].
  - by destruct (get_next_request_collections w) as (_ & _ & -> & _).
  - by destruct (sweep_heap now w) as [-> _].
  - case_decide; [done|]. by rewrite fn_lookup_insert_ne.
  - case_decide; [done|]. unfold heap_execute_try.
    destruct (execute_try _). simpl. by rewrite fn_lookup_insert_ne.
Qed.

Lemma run_ops_frame ops : ∀ w a,
  (a < next_addr w)%nat → exec_history a ops = [] →
  heap (run_ops ops w) a = heap w a.
Proof.
  induction ops as [|op ops IH]; intros w a Ha Hhist; [done|].
  change (op :: ops) with ([op] ++ ops) in Hhist.
  rewrite exec_history_app in Hhist. apply app_eq_nil in Hhist as [H1 H2].
  simpl. rewrite IH; [by apply apply_op_frame| |done].
  rewrite apply_op_next_addr. lia.
Qed.

Lemma execute_try_final r :
  status (execute_try r).1 = EXECUTED ∨ status (execute_try r).1 = ERROR.
Proof.
  unfold execute_try. destruct (action r ()) as [v| |frames]; simpl; auto.
  rewrite traceback_lines_format_exc, last_cons.
  destruct (last (traceback_lines frames)); simpl; auto.
Qed.

(** One operation on an existing request: its status follows the halves of
    [execute] run on it, as long as they make up at most one call. *)
Lemma apply_op_tracks op w a h :
  (a < next_addr w)%nat →
  status_after_phases h (status (heap w a)) →
  (h ++ exec_history a [op]) `prefix_of` [PhaseBegin; PhaseTry] →
  status_after_phases (h ++ exec_history a [op])
    (status (heap (apply_op op w) a)).
Proof.
  intros Ha Hh [k Hk].
  destruct (exec_history a [op]) as [|p l] eqn:Hop.
  - rewrite app_nil_r. by rewrite apply_op_frame.
  - destruct op as [g now act| |now|b|b]; simpl in Hop; try done;
      case_decide; simplify_eq/=.
    + rewrite fn_lookup_insert.
      destruct h as [|x [|y h]]; simplify_eq/=; [done|by destruct h].
    + unfold heap_execute_try.
      pose proof (execute_try_final (heap w a)) as Hfinal.
      destruct (execute_try (heap w a)) as [r res]. simpl in *.
      rewrite fn_lookup_insert.
      destruct h as [|x [|y h]]; simplify_eq/=; [done|by destruct h].
Qed.

Section FreshManager.

Variables resp discard : option Z.

Lemma run_ops_next_addr ops :
  next_addr (run_ops ops (RequestManager_init resp discard)) = length (issued ops).
Proof.
  induction ops as [|op ops IH] using rev_ind; [done|].
  by rewrite run_ops_snoc, apply_op_next_addr, IH, issued_app, length_app.
Qed.

(** The status of a request object follows the halves of [execute] run on
    it, when there is at most one call of [execute]. *)
Lemma status_tracks_history ops a :
  calls_on_objects 0 ops →
  executed_at_most_once a ops →
  (a < next_addr (run_ops ops (RequestManager_init resp discard)))%nat →
  status_after_phases (exec_history a ops)
    (status (heap (run_ops ops (RequestManager_init resp discard)) a)).
Proof.
  induction ops as [|op ops IH] using rev_ind; intros Hcalls Honce Ha.
  - simpl in Ha. lia.
  - apply calls_on_objects_app in Hcalls as [Hcalls _].
    pose proof (at_most_once_prefix _ _ _ Honce) as Honce'.
    unfold executed_at_most_once in Honce.
    rewrite run_ops_snoc in *. rewrite exec_history_app in *.
    destruct (decide (a < next_addr (run_ops ops (RequestManager_init resp discard)))%nat)
      as [Hlt|Hge].
    + apply apply_op_tracks; [done| |done]. by apply IH.
    + rewrite apply_op_next_addr in Ha.
      rewrite (exec_history_unallocated ops 0 a); [|done|].
      2:{ rewrite <- run_ops_next_addr. lia. }
      destruct op as [g now act| |now|b|b]; simpl in *; try lia.
      assert (a = next_addr (run_ops ops (RequestManager_init resp discard)))
        as -> by lia.
      by rewrite fn_lookup_insert.
Qed.

Lemma status_le_refl s : status_le s s.
Proof. by destruct s. Qed.

(** As long as uuids do not repeat, an id stays bound to the object it was
    registered with. *)
Lemma reference_stable ops1 ops2 u a a' :
  NoDup (issued (ops1 ++ ops2)) →
  _request_dict (run_ops ops1 (RequestManager_init resp discard)) !! u = Some a →
  _request_dict (run_ops (ops1 ++ ops2) (RequestManager_init resp discard)) !! u
    = Some a' →
  a' = a.
Proof.
  intros Hnd Hu. revert a' Hnd.
  induction ops2 as [|op ops2 IH] using rev_ind; intros a' Hnd Hu'.
  - rewrite app_nil_r in Hu'. congruence.
  - rewrite (assoc_L (++)) in Hnd, Hu'. rewrite run_ops_snoc in Hu'.
    assert (Hnd' : NoDup (issued (ops1 ++ ops2))).
    { rewrite issued_app in Hnd. by apply NoDup_app in Hnd as [? _]. }
    destruct op as [g now act| |now|b|b]; simpl in Hu'.
    + destruct (decide (g = u)) as [->|Hne].
      * exfalso. rewrite issued_app in Hnd. simpl in Hnd.
        apply NoDup_app in Hnd as (_ & Hfresh & _).
        apply (Hfresh u); [|by left].
        rewrite issued_app. apply elem_of_app. left.
        assert (Hnd1 : NoDup (issued ops1)).
        { rewrite issued_app in Hnd'. by apply NoDup_app in Hnd' as [? _]. }
        destruct (reached_run resp discard ops1 Hnd1) as (_ & Hdict & _).
        by destruct (Hdict _ _ Hu).
      * rewrite lookup_insert_ne in Hu' by done. by apply IH.
    + destruct (get_next_request_collections
                  (run_ops (ops1 ++ ops2) (RequestManager_init resp discard)))
        as (Hd & _). rewrite Hd in Hu'. by apply IH.
    + apply sweep_lookup_Some in Hu'. by apply IH.
    + by apply IH.
    + unfold heap_execute_try in Hu'. destruct (execute_try _). by apply IH.
Qed.

Lemma run_ops_allocated ops : ∀ w a,
  (a < next_addr w)%nat → (a < next_addr (run_ops ops w))%nat.
Proof.
  induction ops as [|op ops IH]; intros w a Ha; [done|].
  simpl. apply IH. rewrite apply_op_next_addr. lia.
Qed.

(** The object-level fact behind C6: between two points of a history, the
    status of a request executed at most once only moves forward. *)
Lemma object_status_monotone ops1 ops2 a :
  calls_on_objects 0 (ops1 ++ ops2) →
  executed_at_most_once a (ops1 ++ ops2) →
  let w1 := run_ops ops1 (RequestManager_init resp discard) in
  (a < next_addr w1)%nat →
  status_le (status (heap w1 a)) (status (heap (run_ops ops2 w1) a)) ∧
  (exec_history a ops1 = [] → status (heap w1 a) = PENDING).
Proof.
  intros Hcalls Honce w1 Ha1.
  pose proof (at_most_once_prefix _ _ _ Honce) as Honce1.
  apply calls_on_objects_app in Hcalls as Hcalls'. destruct Hcalls' as [Hcalls1 _].
  pose proof (status_tracks_history ops1 a Hcalls1 Honce1 Ha1) as Ht1.
  fold w1 in Ht1.
  assert (Ht2 : status_after_phases (exec_history a (ops1 ++ ops2))
                  (status (heap (run_ops ops2 w1) a))).
  { unfold w1. rewrite <- run_ops_app. apply status_tracks_history; [done..|].
    rewrite run_ops_app. by apply run_ops_allocated. }
  split.
  - destruct (exec_history a ops2) as [|p2 h2] eqn:Hh2.
    + rewrite run_ops_frame by done. apply status_le_refl.
    + destruct (at_most_once_cases _ _ Honce) as [Hh|[Hh|Hh]];
        rewrite Hh in Ht2; rewrite exec_history_app, Hh2 in Hh;
        destruct (exec_history a ops1) as [|x [|y l]]; simplify_eq/=;
        try (by destruct l); try (by destruct h2);
        rewrite ?Ht1; try done.
      by destruct Ht2 as [-> | ->].
  - intros Hh. by rewrite Hh in Ht1.
Qed.

End FreshManager.

(** C6. Take any history of operations on a fresh manager in which uuids
    do not repeat and [execute] is called on existing requests only, and a
    request that exists at some point of it and on which [execute] is
    invoked at most once in the whole history. Its status at that point and
    its status at any later point are in order: [PENDING], then
    [EXECUTING], then [EXECUTED] or [ERROR], which then stays the same. The
    same holds of what [get_request_status] returns under the request's id
    at the two points, whenever it returns a status at both. A request is
    built [PENDING] and stays [PENDING] until [execute] starts. *)
Theorem status_never_reverts (resp discard : option Z) (ops1 ops2 : list Op)
    (a : nat) :
  NoDup (issued (ops1 ++ ops2)) →
  calls_on_objects 0 (ops1 ++ ops2) →
  executed_at_most_once a (ops1 ++ ops2) →
  let w1 := run_ops ops1 (RequestManager_init resp discard) in
  let w2 := run_ops ops2 w1 in
  (a < next_addr w1)%nat →
  status_le (status (heap w1 a)) (status (heap w2 a)) ∧
  (∀ u s1 s2,
      _request_dict w1 !! u = Some a →
      get_request_status w1 u = Some s1 →
      get_request_status w2 u = Some s2 →
      status_le s1 s2) ∧
  (exec_history a ops1 = [] → status (heap w1 a) = PENDING) ∧
  (∀ generated now act, status (Request_init generated now act) = PENDING).
Proof.
  intros Hnd Hcalls Honce w1 w2 Ha1.
  destruct (object_status_monotone resp discard ops1 ops2 a Hcalls Honce Ha1)
    as [Hle Hpending].
  fold w1 w2 in Hle, Hpending.
  split_and!; [done| |done|done].
  intros u s1 s2 Hu Hs1 Hs2.
  unfold get_request_status in Hs1, Hs2. rewrite Hu in Hs1.
  destruct (_request_dict w2 !! u) as [a'|] eqn:Hu2; [|done].
  assert (a' = a) as ->.
  { eapply reference_stable; [exact Hnd|exact Hu|].
    by rewrite run_ops_app. }
  by injection Hs1 as <-; injection Hs2 as <-.
Qed.

Lemma status_never_reverts_witness :
  NoDup (issued (life_begin ++ life_end)) ∧
  calls_on_objects 0 (life_begin ++ life_end) ∧
  executed_at_most_once 0 (life_begin ++ life_end) ∧
  get_request_status (run_ops life_begin (RequestManager_init None None)) "r1"
    = Some EXECUTING ∧
  get_request_status
    (run_ops life_end (run_ops life_begin (RequestManager_init None None))) "r1"
    = Some EXECUTED ∧
  status_le EXECUTING EXECUTED.
Proof.
  assert (Hnd : NoDup (issued (life_begin ++ life_end)))
    by (apply (bool_decide_unpack _); by vm_compute).
  assert (Hcalls : calls_on_objects 0 (life_begin ++ life_end))
    by (simpl; lia).
  assert (Honce : executed_at_most_once 0 (life_begin ++ life_end))
    by (by exists []).
  split_and!; [done..|reflexivity|reflexivity|].
  assert (Ha : (0 < next_addr (run_ops life_begin (RequestManager_init None None)))%nat)
    by (apply (bool_decide_unpack _); by vm_compute).
  exact (proj1 (status_never_reverts None None life_begin life_end 0
                  Hnd Hcalls Honce Ha)).
Defined.

(** Without the proviso the order can be broken: a second call of
    [execute] on an executed request shows [EXECUTING] again. *)
Example second_execute_reverts :
  status (execute (Request_init "r1" 0 ok_action)).1 = EXECUTED ∧
  status (execute_begin (execute (Request_init "r1" 0 ok_action)).1) = EXECUTING.
Proof. done. Qed.

(** ** The execution loop *)

Lemma main_iteration_idle m :
  _request_deque (main_world m) = [] →
  main_iteration m = (record_call CallSleep m, Continue).
Proof.
  intros H. unfold main_iteration. rewrite get_next_request_empty by done.
  by destruct m.
Qed.

Lemma main_iteration_request m w1 a :
  get_next_request (main_world m) = (w1, Ok (Some a)) →
  ∃ m',
    main_world m' = (heap_execute a w1).1 ∧
    match (execute (heap w1 a)).2 with
    | Ok _ =>
        main_iteration m = (m', Continue) ∧
        calls m' = calls m ++ [CallPause; CallExecute a; CallUpdate; CallUnpause] ∧
        _paused (status_updater m') = false
    | Raise e =>
        main_iteration m = (m', Died e) ∧
        calls m' = calls m ++ [CallPause; CallExecute a] ∧
        _paused (status_updater m') = true
    end.
Proof.
  intros Hnext. unfold main_iteration. rewrite Hnext.
  unfold execute_call, pause_call. simpl.
  rewrite heap_execute_spec. simpl.
  destruct (execute (heap w1 a)) as [r [[]|e]]; simpl.
  - eexists. split; [|split_and!; [reflexivity|..]]; simpl; [done| |done].
    by rewrite <- !(assoc_L (++)).
  - eexists. split; [|split_and!; [reflexivity|..]]; simpl; [done| |done].
    by rewrite <- !(assoc_L (++)).
Qed.

(** One iteration keeps the FIFO within the map, and leaves the loop only
    by a [SystemExit] that the executed action raised. *)
Lemma main_iteration_exit m m' ctl :
  fifo_in_map (main_world m) →
  main_iteration m = (m', ctl) →
  fifo_in_map (main_world m') ∧
  (ctl = Continue ∨
   ctl = Died SystemExit ∧
   ∃ a, calls m' = calls m ++ [CallPause; CallExecute a] ∧
        action (heap (main_world m') a) () = RaisesSystemExit ∧
        status (heap (main_world m') a) = EXECUTED ∧
        _paused (status_updater m') = true).
Proof.
  intros Hok Hit.
  destruct (get_next_request_cases _ Hok) as
    [[Hq _] | (u & rest & a & Hq & Ha & Hnext)].
  - rewrite main_iteration_idle in Hit by done. injection Hit as <- <-.
    split; [done | by left].
  - pose proof (get_next_request_fifo_in_map _ Hok) as Hok1.
    rewrite Hnext in Hok1. simpl in Hok1.
    destruct (main_iteration_request _ _ _ Hnext) as (m2 & Hw & Hres).
    assert (Hfifo : fifo_in_map (main_world m2)).
    { rewrite Hw. unfold fifo_in_map.
      by destruct (heap_execute_collections a
                     (set_collections (_request_dict (main_world m)) rest
                        (main_world m))) as [-> ->]. }
    assert (Hheap : heap (main_world m2) a =
                    (execute (heap (main_world m) a)).1).
    { rewrite Hw. by rewrite heap_execute_lookup. }
    simpl in Hres.
    destruct (execute_outcomes (heap (main_world m) a)) as
      [(r' & Hex & _) | (r' & Hex & Hst & Hact)];
      rewrite Hex in Hres, Hheap; simpl in Hres, Hheap;
      destruct Hres as (Hit' & Hcalls & Hpaused);
      rewrite Hit' in Hit; injection Hit as <- <-.
    + split; [done | by left].
    + split; [done | right]. split; [done|]. exists a.
      rewrite Hheap. split_and!; try done.
      rewrite execute_system_exit in Hex by done. by injection Hex as <-.
Qed.

(** On the shared world an iteration of the loop is a [get_next_request],
    followed or not by the two halves of [execute]; it issues no uuid. *)
Lemma main_iteration_world m :
  ∃ ops, issued ops = [] ∧
         main_world (main_iteration m).1 = run_ops ops (main_world m).
Proof.
  unfold main_iteration.
  destruct (get_next_request (main_world m)) as [w1 [[a|]|e]] eqn:Hnext.
  - exists [OpNext; OpExecuteBegin a; OpExecuteTry a]. split; [done|].
    simpl. rewrite Hnext. unfold execute_call, pause_call. simpl.
    fold (heap_execute a w1).
    by destruct (heap_execute a w1) as [w2 [[]|e]].
  - exists [OpNext]. split; [done|]. simpl. by rewrite Hnext.
  - exists [OpNext]. split; [done|]. simpl. by rewrite Hnext.
Qed.

Lemma reached_steps ops others w :
  NoDup (issued (ops ++ others)) →
  reached ops w → reached (ops ++ others) (run_ops others w).
Proof.
  induction others as [|op others IH] using rev_ind; intros Hnd Hw.
  - by rewrite app_nil_r.
  - rewrite (assoc_L (++)) in *. rewrite run_ops_snoc.
    apply reached_step; [done|]. apply IH; [|done].
    rewrite issued_app in Hnd. by apply NoDup_app in Hnd as [? _].
Qed.

(** Whatever the other threads do between its iterations, as long as no
    uuid is issued twice, the loop ends only by a [SystemExit] that the
    action of the request just executed raised. *)
Lemma main_loop_exit env : ∀ ops m m' ctl,
  reached ops (main_world m) →
  NoDup (issued ops ++ issued (concat env)) →
  main_loop env m = (m', ctl) →
  ctl = Continue ∨
  ctl = Died SystemExit ∧
  ∃ a l, calls m' = l ++ [CallPause; CallExecute a] ∧
         action (heap (main_world m') a) () = RaisesSystemExit ∧
         status (heap (main_world m') a) = EXECUTED ∧
         _paused (status_updater m') = true.
Proof.
  induction env as [|others env IH]; simpl; intros ops m m' ctl Hw Hnd Hloop.
  - injection Hloop as <- <-. by left.
  - rewrite issued_app, (assoc_L (++)), <- issued_app in Hnd.
    assert (Hnd1 : NoDup (issued (ops ++ others)))
      by (by apply NoDup_app in Hnd as [? _]).
    pose proof (reached_steps _ _ _ Hnd1 Hw) as Hw1.
    set (m1 := with_world (run_ops others (main_world m)) m) in *.
    destruct (main_iteration m1) as [m2 ctl2] eqn:Hit.
    destruct (main_iteration_exit m1 m2 ctl2 (proj1 (proj2 (proj2 Hw1))) Hit)
      as [_ [-> | [-> (a & Hc & ?)]]].
    + destruct (main_iteration_world m1) as (ops1 & Hissued & Hworld).
      rewrite Hit in Hworld. simpl in Hworld.
      apply (IH ((ops ++ others) ++ ops1) m2); [| |done].
      * rewrite Hworld. apply reached_steps; [|done].
        by rewrite issued_app, Hissued, app_nil_r.
      * by rewrite issued_app, Hissued, app_nil_r.
    + injection Hloop as <- <-. right. split; [done|]. by exists a, (calls m1).
Qed.

(** The loop over two stretches of the environment: the second stretch is
    run only if the loop is still going after the first. *)
Lemma main_loop_app env1 env2 m :
  main_loop (env1 ++ env2) m =
    match main_loop env1 m with
    | (m1, Continue) => main_loop env2 m1
    | stopped => stopped
    end.
Proof.
  revert m. induction env1 as [|others env1 IH]; intros m; simpl; [done|].
  destruct (main_iteration (with_world (run_ops others (main_world m)) m))
    as [m1 []]; [apply IH|done..].
Qed.

(** C4. An action that raises [SystemExit]: [execute] marks the request
    [EXECUTED] and re-raises; in the execution loop the signal leaves the
    loop right after the [execute] call, so neither [update] nor [unpause]
    is called and the updater stays paused. The loop ends at the first
    request it takes whose action raises [SystemExit]: it ends by that
    [SystemExit], its last calls are the [pause] and the [execute] of that
    request, and nothing that the other threads do later is looked at. And
    when the loop, started on a fresh manager, has ended, it has ended this
    way, whatever the other threads did between its iterations (submissions
    with uuids that do not repeat, sweeps). *)
Theorem system_exit_ends_main_loop (resp discard : option Z)
    (u0 : StatusUpdater) (env : list (list Op)) :
  NoDup (issued (concat env)) →
  (∀ r, action r () = RaisesSystemExit →
        execute r = (set_status EXECUTED (execute_begin r), Raise SystemExit)) ∧
  (∀ m w1 a,
      get_next_request (main_world m) = (w1, Ok (Some a)) →
      action (heap w1 a) () = RaisesSystemExit →
      ∃ m', main_iteration m = (m', Died SystemExit) ∧
            status (heap (main_world m') a) = EXECUTED ∧
            calls m' = calls m ++ [CallPause; CallExecute a] ∧
            _paused (status_updater m') = true) ∧
  (∀ pre others post m1 w1 a,
      env = pre ++ others :: post →
      main_loop pre (Main_start (RequestManager_init resp discard) u0)
        = (m1, Continue) →
      get_next_request (run_ops others (main_world m1)) = (w1, Ok (Some a)) →
      action (heap w1 a) () = RaisesSystemExit →
      ∃ m', main_loop env (Main_start (RequestManager_init resp discard) u0)
              = (m', Died SystemExit) ∧
            main_world m' = (heap_execute a w1).1 ∧
            status (heap (main_world m') a) = EXECUTED ∧
            calls m' = calls m1 ++ [CallPause; CallExecute a] ∧
            _paused (status_updater m') = true) ∧
  (∀ m' ctl,
      main_loop env (Main_start (RequestManager_init resp discard) u0) = (m', ctl) →
      ctl ≠ Continue →
      ctl = Died SystemExit ∧
      ∃ a l, calls m' = l ++ [CallPause; CallExecute a] ∧
             action (heap (main_world m') a) () = RaisesSystemExit ∧
             status (heap (main_world m') a) = EXECUTED ∧
             _paused (status_updater m') = true).
Proof.
  intros Hnd. split_and!.
  - apply execute_system_exit.
  - intros m w1 a Hnext Hact.
    destruct (main_iteration_request _ _ _ Hnext) as (m' & Hw & Hres).
    rewrite execute_system_exit in Hres by done. simpl in Hres.
    destruct Hres as (Hit & Hcalls & Hpaused).
    exists m'. split_and!; try done.
    rewrite Hw, heap_execute_lookup. by rewrite execute_system_exit.
  - intros pre others post m1 w1 a -> Hpre Hnext Hact.
    rewrite main_loop_app, Hpre. simpl.
    destruct (main_iteration_request
                (with_world (run_ops others (main_world m1)) m1) _ _ Hnext)
      as (m' & Hw & Hres).
    rewrite execute_system_exit in Hres by done. simpl in Hres.
    destruct Hres as (Hit & Hcalls & Hpaused).
    rewrite Hit. exists m'. split_and!; try done.
    rewrite Hw, heap_execute_lookup. by rewrite execute_system_exit.
  - intros m' ctl Hloop Hctl.
    destruct (main_loop_exit env []
                (Main_start (RequestManager_init resp discard) u0) m' ctl
                (reached_init resp discard) Hnd Hloop)
      as [-> | [-> H]]; [done|].
    by split.
Qed.

Lemma system_exit_ends_main_loop_witness :
  NoDup (issued (concat stop_request_env)) ∧
  ∃ m', main_loop stop_request_env
          (Main_start (RequestManager_init None None) fresh_updater)
        = (m', Died SystemExit) ∧
    main_world m' = (heap_execute 0 (get_next_request (world_with exit_action)).1).1 ∧
    status (heap (main_world m') 0%nat) = EXECUTED ∧
    calls m' = [CallSleep; CallPause; CallExecute 0%nat] ∧
    _paused (status_updater m') = true.
Proof.
  assert (Hnd : NoDup (issued (concat stop_request_env)))
    by (apply (bool_decide_unpack _); by vm_compute).
  split; [exact Hnd|].
  destruct (system_exit_ends_main_loop None None fresh_updater stop_request_env Hnd)
    as (_ & _ & Hends & _).
  apply (Hends [[]] [OpCreate "r1" 0 exit_action] [[]]
           (record_call CallSleep
              (Main_start (RequestManager_init None None) fresh_updater))
           (get_next_request (world_with exit_action)).1 0%nat);
    reflexivity.
Defined.

Example stop_request_run :
  (main_loop stop_request_env (Main_start fresh_world fresh_updater)).2
    = Died SystemExit ∧
  calls (main_loop stop_request_env (Main_start fresh_world fresh_updater)).1
    = [CallSleep; CallPause; CallExecute 0%nat] ∧
  get_request_status
    (main_world (main_loop stop_request_env
                   (Main_start fresh_world fresh_updater)).1) "r1"
    = Some EXECUTED.
Proof. by vm_compute. Qed.

(** C5. An action that raises anything but [SystemExit]: [execute] returns
    normally with the request in [ERROR], and its answer is the last
    non-empty line of the formatted traceback, a single line; in the
    execution loop the iteration then runs to its end ([update] and
    [unpause] are called) and the loop goes on. *)
Theorem failed_action_is_reported (r : Request) (frames : string) :
  action r () = RaisesError frames →
  ∃ line r',
    execute r = (r', Ok ()) ∧
    status r' = ERROR ∧
    answer r' = PyStr line ∧
    last_nonempty_line (format_exc frames) line ∧
    single_line line ∧
    ∀ m w1 a,
      get_next_request (main_world m) = (w1, Ok (Some a)) →
      heap w1 a = r →
      ∃ m', main_iteration m = (m', Continue) ∧
            heap (main_world m') a = r' ∧
            calls m' = calls m ++ [CallPause; CallExecute a; CallUpdate; CallUnpause] ∧
            _paused (status_updater m') = false.
Proof.
  intros Hact. destruct (execute_error _ _ Hact) as (line & Hex & Hlast & Hsingle).
  exists line. eexists. split; [exact Hex|]. split_and!; try done.
  intros m w1 a Hnext <-.
  destruct (main_iteration_request _ _ _ Hnext) as (m' & Hw & Hres).
  rewrite Hex in Hres. simpl in Hres. destruct Hres as (Hit & Hcalls & Hpaused).
  exists m'. split_and!; try done.
  rewrite Hw, heap_execute_lookup. by rewrite Hex.
Qed.

Lemma failed_action_is_reported_witness :
  ∃ line r',
    execute (Request_init "r1" 0 boom_action) = (r', Ok ()) ∧
    status r' = ERROR ∧
    answer r' = PyStr line ∧
    last_nonempty_line (format_exc boom_frames) line ∧
    single_line line ∧
    ∀ m w1 a,
      get_next_request (main_world m) = (w1, Ok (Some a)) →
      heap w1 a = Request_init "r1" 0 boom_action →
      ∃ m', main_iteration m = (m', Continue) ∧
            heap (main_world m') a = r' ∧
            calls m' = calls m ++ [CallPause; CallExecute a; CallUpdate; CallUnpause] ∧
            _paused (status_updater m') = false.
Proof.
  apply (failed_action_is_reported (Request_init "r1" 0 boom_action) boom_frames).
  reflexivity.
Defined.

Example boom_answer :
  answer (execute (Request_init "r1" 0 boom_action)).1 = PyStr "ValueError: boom".
Proof. reflexivity. Qed.

(** * Further properties *)

(** ** The sweep, in closed form *)




(** ** The reaper before its first sweep *)

(** X2. Until an hour of sleep has accumulated the reaper leaves the
    registry alone. The responsiveness is not negative, and it and the time
    already passed are whole numbers of 64ths of a second, so that the
    code's float sums are the exact sums: over any ticks whose sleeps add
    up to less than 3600 seconds, whatever the stop flag and the clock,
    [run] changes neither the world nor the sweep log, and it does not
    die. *)
Theorem reaper_quiet_before_the_hour (env : list (bool * Z)) (st : Reaper) :
  0 ≤ responsiveness (world st) →
  float_exact (responsiveness (world st)) →
  0 ≤ time_passed st →
  float_exact (time_passed st) →
  time_passed st + Z.of_nat (length env) * responsiveness (world st) < seconds 3600 →
  world (run env st).1 = world st ∧
  sweep_log (run env st).1 = sweep_log st ∧
  ∀ e, (run env st).2 ≠ Died e.
Proof.
  revert st.
  induction env as [|[stop now] env IH]; intros st Hresp Hex Ht0 Hex0 Htime; [done|].
  simpl in Htime. simpl. unfold run_iteration, sleep.
  rewrite decide_False by lia.
  destruct stop; [done|].
  rewrite decide_True by lia.
  match goal with |- context [run env ?st'] =>
    destruct (IH st') as (-> & -> & ?) end; simpl; try done; try lia.
  by apply Z.divide_add_r.
Qed.

Lemma reaper_quiet_before_the_hour_witness :
  0 ≤ responsiveness (world reaper_late) ∧
  float_exact (responsiveness (world reaper_late)) ∧
  float_exact (time_passed reaper_late) ∧
  world (run (replicate 100 (false, seconds 172800)) reaper_late).1
    = world reaper_late.
Proof.
  assert (H0 : 0 ≤ responsiveness (world reaper_late)) by (by vm_compute).
  assert (H1 : float_exact (responsiveness (world reaper_late))) by (by exists 32).
  assert (H2 : 0 ≤ time_passed reaper_late) by (by vm_compute).
  assert (H3 : float_exact (time_passed reaper_late)) by (by exists 226560).
  split; [exact H0|]. split; [exact H1|]. split; [exact H3|].
  apply (reaper_quiet_before_the_hour _ reaper_late H0 H1 H2 H3). by vm_compute.
Defined.

(** ** The order of execution *)

Lemma execute_try_uuid r : uuid (execute_try r).1 = uuid r.
Proof.
  unfold execute_try. destruct (action r ()); simpl; [done..|].
  by destruct (last _).
Qed.

(** No operation changes the uuid of an existing request object. *)
Lemma apply_op_uuid op w a :
  (a < next_addr w)%nat → uuid (heap (apply_op op w) a) = uuid (heap w a).
Proof.
  intros Ha. destruct op as [g now act| |now|b|b]; simpl.
  - rewrite fn_lookup_insert_ne; [done|lia].
  - by destruct (get_next_request_collections w) as (_ & _ & -> & _).
  - by destruct (sweep_heap now w) as [-> _].
  - destruct (decide (b = a)) as [->|Hne].
    + by rewrite fn_lookup_insert.
    + by rewrite fn_lookup_insert_ne.
  - unfold heap_execute_try.
    pose proof (execute_try_uuid (heap w b)) as Hu.
    destruct (execute_try (heap w b)) as [r res]. simpl in *.
    destruct (decide (b = a)) as [->|Hne].
    + by rewrite fn_lookup_insert.
    + by rewrite fn_lookup_insert_ne.
Qed.

Lemma executed_uuids_ext m w' :
  Forall (λ a, uuid (heap w' a) = uuid (heap (main_world m) a)) (executed (calls m)) →
  executed_uuids (with_world w' m) = executed_uuids m.
Proof.
  unfold executed_uuids. simpl. intros H. by apply Forall_fmap_ext.
Qed.

Lemma loop_inv_op ops op m :
  NoDup (issued (ops ++ [op])) →
  loop_inv ops m →
  loop_inv (ops ++ [op]) (with_world (apply_op op (main_world m)) m).
Proof.
  intros Hnd (Hreach & Hdict & Hex & Hord).
  pose proof (reached_step _ _ _ Hnd Hreach) as Hreach'.
  assert (Huu : executed_uuids (with_world (apply_op op (main_world m)) m)
                = executed_uuids m).
  { apply executed_uuids_ext. eapply Forall_impl; [exact Hex|].
    simpl. intros a Ha. by apply apply_op_uuid. }
  split_and!; simpl.
  - done.
  - intros u a Hu. destruct Hreach as (_ & Hd & _).
    assert (Hold : _request_dict (main_world m) !! u = Some a ∨
                   (¬ (a < next_addr (main_world m))%nat ∧
                    ∃ now act, op = OpCreate u now act ∧
                               a = next_addr (main_world m))).
    { destruct op as [g now act| |now|b|b]; simpl in Hu.
      - destruct (decide (g = u)) as [->|Hne].
        + rewrite lookup_insert_eq in Hu. injection Hu as <-.
          right. split; [lia|]. by exists now, act.
        + rewrite lookup_insert_ne in Hu by done. by left.
      - destruct (get_next_request_collections (main_world m)) as (Hd' & _).
        rewrite Hd' in Hu. by left.
      - apply sweep_lookup_Some in Hu. by left.
      - by left.
      - unfold heap_execute_try in Hu. destruct (execute_try _). by left. }
    destruct Hold as [Hu0 | (_ & now & act & -> & ->)].
    + destruct (Hd _ _ Hu0) as [Ha _].
      rewrite apply_op_uuid by done. by apply Hdict.
    + simpl. by rewrite fn_lookup_insert.
  - eapply Forall_impl; [exact Hex|]. simpl. intros a Ha.
    rewrite apply_op_next_addr. lia.
  - rewrite Huu, issued_app.
    destruct op as [g now act| |now|b|b]; simpl.
    + rewrite (assoc_L (++)). by apply sublist_app.
    + rewrite app_nil_r.
      destruct (get_next_request_collections (main_world m)) as (_ & -> & _).
      etrans; [|exact Hord]. apply sublist_app; [done|].
      destruct (_request_deque (main_world m)); [done|]. by apply sublist_cons.
    + rewrite app_nil_r.
      destruct Hreach as (_ & _ & Hok).
      destruct (sweep_spec now _ Hok) as (d' & kept & -> & _ & _ & Hsub & _).
      simpl. etrans; [|exact Hord]. by apply sublist_app.
    + by rewrite app_nil_r.
    + rewrite app_nil_r. unfold heap_execute_try. by destruct (execute_try _).
Qed.

Lemma loop_inv_ops others : ∀ ops m,
  NoDup (issued (ops ++ others)) →
  loop_inv ops m →
  loop_inv (ops ++ others) (with_world (run_ops others (main_world m)) m).
Proof.
  induction others as [|op others IH]; intros ops m Hnd Hinv.
  - rewrite app_nil_r. by destruct m.
  - change (op :: others) with ([op] ++ others) in *.
    rewrite (assoc_L (++)) in *.
    assert (Hnd1 : NoDup (issued (ops ++ [op]))).
    { rewrite issued_app in Hnd. by apply NoDup_app in Hnd as [? _]. }
    apply (IH (ops ++ [op]) (with_world (apply_op op (main_world m)) m) Hnd).
    by apply loop_inv_op.
Qed.

(** One iteration of the loop: what was at the head of the FIFO, if
    anything, is now the last request executed. *)
Lemma loop_inv_iteration ops m :
  loop_inv ops m →
  ∃ ops', issued ops' = issued ops ∧ loop_inv ops' (main_iteration m).1.
Proof.
  intros (Hreach & Hdict & Hex & Hord).
  destruct Hreach as (Hnext & Hd & Hok).
  destruct (get_next_request_cases _ (proj1 Hok)) as
    [[Hq Hget] | (u & rest & a & Hq & Ha & Hget)].
  - exists ops. split; [done|].
    rewrite main_iteration_idle by done.
    split_and!; simpl; try done.
    + unfold record_call. simpl. unfold executed. rewrite omap_app. simpl.
      by rewrite app_nil_r.
    + unfold executed_uuids, record_call. simpl. unfold executed.
      rewrite omap_app. simpl. by rewrite app_nil_r.
  - exists (ops ++ [OpNext; OpExecuteBegin a; OpExecuteTry a]).
    split; [by rewrite issued_app, app_nil_r|].
    destruct (main_iteration_request _ _ _ Hget) as (m' & Hw & Hres).
    assert (Hm' : (main_iteration m).1 = m' ∧
                  executed (calls m') = executed (calls m) ++ [a]).
    { destruct ((execute _).2) as [[]|e]; destruct Hres as (-> & -> & _);
        (split; [done|]); unfold executed; rewrite omap_app; simpl; done. }
    destruct Hm' as [-> Hexec].
    set (w1 := set_collections (_request_dict (main_world m)) rest (main_world m)) in *.
    assert (Hcoll : _request_dict (main_world m') = _request_dict (main_world m) ∧
                    _request_deque (main_world m') = rest ∧
                    next_addr (main_world m') = next_addr (main_world m)).
    { rewrite Hw, heap_execute_spec. done. }
    destruct Hcoll as (Hd' & Hq' & Hn').
    assert (Huuid : ∀ b, uuid (heap (main_world m') b) = uuid (heap (main_world m) b)).
    { intros b. rewrite Hw, heap_execute_spec. simpl.
      pose proof (execute_try_uuid (execute_begin (heap (main_world m) a))) as Hu.
      fold (execute (heap (main_world m) a)) in Hu.
      destruct (decide (a = b)) as [->|Hne].
      - rewrite fn_lookup_insert. by rewrite Hu.
      - by rewrite !fn_lookup_insert_ne. }
    assert (Hall : reached (ops ++ [OpNext; OpExecuteBegin a; OpExecuteTry a])
                     (main_world m')).
    { split_and!.
      - by rewrite Hn', issued_app, app_nil_r.
      - rewrite Hd', Hn', issued_app, app_nil_r. apply Hd.
      - split.
        + unfold fifo_in_map. rewrite Hd', Hq'.
          destruct Hok as [Hin _]. unfold fifo_in_map in Hin. rewrite Hq in Hin.
          by apply Forall_cons in Hin as [_ ?].
        + rewrite Hq'. destruct Hok as [_ Hnd]. rewrite Hq in Hnd.
          by apply NoDup_cons in Hnd as [_ ?]. }
    split_and!.
    + done.
    + intros v b. rewrite Hd', Huuid. apply Hdict.
    + rewrite Hexec, Hn'. apply Forall_app. split; [done|].
      apply Forall_singleton. by destruct (Hd _ _ Ha).
    + unfold executed_uuids. rewrite Hexec, fmap_app. simpl.
      rewrite Hq', issued_app, app_nil_r, <- (assoc_L (++)). simpl.
      rewrite (Huuid a), (Hdict _ _ Ha).
      replace ((λ a0, uuid (heap (main_world m') a0)) <$> executed (calls m))
        with (executed_uuids m).
      2:{ unfold executed_uuids. apply list_fmap_ext. intros ? b _. by rewrite Huuid. }
      by rewrite <- Hq.
Qed.

Lemma loop_inv_main_loop env : ∀ ops m,
  NoDup (issued ops ++ issued (concat env)) →
  loop_inv ops m →
  ∃ ops', issued ops' `prefix_of` (issued ops ++ issued (concat env)) ∧
          loop_inv ops' (main_loop env m).1.
Proof.
  induction env as [|others env IH]; simpl; intros ops m Hnd Hinv.
  - exists ops. split; [by apply prefix_app_r|done].
  - rewrite issued_app, (assoc_L (++)), <- issued_app in Hnd |- *.
    assert (Hnd1 : NoDup (issued (ops ++ others)))
      by (by apply NoDup_app in Hnd as [? _]).
    pose proof (loop_inv_ops _ _ _ Hnd1 Hinv) as Hinv1.
    set (m1 := with_world (run_ops others (main_world m)) m) in *.
    destruct (loop_inv_iteration _ _ Hinv1) as (ops1 & Hiss & Hinv2).
    destruct (main_iteration m1) as [m2 ctl] eqn:Hit. simpl in Hinv2.
    destruct ctl.
    + rewrite <- Hiss in Hnd |- *. by apply IH.
    + exists ops1. split; [|done]. rewrite Hiss. by apply prefix_app_r.
    + exists ops1. split; [|done]. rewrite Hiss. by apply prefix_app_r.
Qed.

(** X3. The main loop on a fresh manager, whatever the other threads do
    between its iterations (with no uuid issued twice): the requests it has
    executed, in the order of execution, are in the order in which they
    were submitted, and none was executed twice. *)
Theorem main_loop_executes_in_submission_order (resp discard : option Z)
    (u0 : StatusUpdater) (env : list (list Op)) :
  NoDup (issued (concat env)) →
  let m' := (main_loop env (Main_start (RequestManager_init resp discard) u0)).1 in
  executed_uuids m' `sublist_of` issued (concat env) ∧
  NoDup (executed (calls m')).
Proof.
  intros Hnd m'.
  assert (Hinv0 : loop_inv [] (Main_start (RequestManager_init resp discard) u0)).
  { split_and!; [apply reached_init| |apply Forall_nil_2|done].
    intros u a. simpl. by rewrite lookup_empty. }
  destruct (loop_inv_main_loop env [] _ Hnd Hinv0) as (ops' & Hpre & Hinv).
  fold m' in Hinv. destruct Hinv as (_ & _ & _ & Hord). simpl in Hpre.
  assert (Hsub : executed_uuids m' `sublist_of` issued (concat env)).
  { transitivity (executed_uuids m' ++ _request_deque (main_world m'));
      [by apply sublist_inserts_r|].
    transitivity (issued ops'); [exact Hord|].
    destruct Hpre as [k ->]. by apply sublist_inserts_r. }
  split; [done|].
  eapply (NoDup_fmap_1 (λ a, uuid (heap (main_world m') a))).
  by eapply sublist_NoDup.
Qed.

Lemma main_loop_executes_in_submission_order_witness :
  NoDup (issued (concat busy_env)) ∧
  executed_uuids (main_loop busy_env (Main_start fresh_world fresh_updater)).1
    = ["r1"; "r2"; "r3"] ∧
  executed_uuids (main_loop busy_env (Main_start fresh_world fresh_updater)).1
    `sublist_of` issued (concat busy_env).
Proof.
  assert (Hnd : NoDup (issued (concat busy_env)))
    by (apply (bool_decide_unpack _); by vm_compute).
  split; [exact Hnd|]. split; [by vm_compute|].
  apply (main_loop_executes_in_submission_order None None fresh_updater busy_env Hnd).
Defined.

(** ** The calls of the main loop *)

Lemma main_iteration_calls m :
  match (main_iteration m).2 with
  | Continue =>
      calls (main_iteration m).1 = calls m ++ [CallSleep] ∧
      status_updater (main_iteration m).1 = status_updater m ∨
      (∃ a, calls (main_iteration m).1
            = calls m ++ [CallPause; CallExecute a; CallUpdate; CallUnpause]) ∧
      _paused (status_updater (main_iteration m).1) = false
  | Died e =>
      e = KeyError ∧ calls (main_iteration m).1 = calls m ∨
      e = SystemExit ∧
      (∃ a, calls (main_iteration m).1 = calls m ++ [CallPause; CallExecute a]) ∧
      _paused (status_updater (main_iteration m).1) = true
  | Break => False
  end.
Proof.
  destruct (get_next_request (main_world m)) as [w1 [[a|]|e]] eqn:Hnext.
  - destruct (main_iteration_request _ _ _ Hnext) as (m' & _ & Hres).
    destruct (execute_outcomes (heap w1 a)) as
      [(r' & Hex & _) | (r' & Hex & _)]; rewrite Hex in Hres; simpl in Hres;
      destruct Hres as (-> & Hcalls & Hp); simpl.
    + right. split; [by exists a|done].
    + right. split; [done|]. split; [by exists a|done].
  - unfold main_iteration. rewrite Hnext. simpl. by left.
  - unfold main_iteration. rewrite Hnext. simpl.
    unfold get_next_request in Hnext.
    destruct (_request_deque (main_world m)); [done|].
    destruct (_request_dict (main_world m) !! _); simplify_eq. by left.
Qed.

(** X4. The main loop, from any state of the manager and whatever the
    other threads do: while it runs, its calls are those of completed
    iterations, each request executed between a [pause] and a forced
    [update] followed by [unpause], and after an iteration that handled a
    request the updater is not paused. It never breaks. If it ends, it ends
    either by [KeyError] from [get_next_request] between iterations, or by
    [SystemExit] out of [execute], right after [pause] and [execute], with
    the updater left paused. *)
Theorem main_loop_calls (env : list (list Op)) (w : World) (u0 : StatusUpdater) :
  match (main_loop env (Main_start w u0)).2 with
  | Continue =>
      rounds (calls (main_loop env (Main_start w u0)).1) ∧
      (executed (calls (main_loop env (Main_start w u0)).1) ≠ [] →
       _paused (status_updater (main_loop env (Main_start w u0)).1) = false)
  | Died e =>
      e = KeyError ∧ rounds (calls (main_loop env (Main_start w u0)).1) ∨
      e = SystemExit ∧ interrupted (calls (main_loop env (Main_start w u0)).1) ∧
      _paused (status_updater (main_loop env (Main_start w u0)).1) = true
  | Break => False
  end.
Proof.
  assert (Hgen : ∀ env m,
    rounds (calls m) →
    (executed (calls m) ≠ [] → _paused (status_updater m) = false) →
    match (main_loop env m).2 with
    | Continue =>
        rounds (calls (main_loop env m).1) ∧
        (executed (calls (main_loop env m).1) ≠ [] →
         _paused (status_updater (main_loop env m).1) = false)
    | Died e =>
        e = KeyError ∧ rounds (calls (main_loop env m).1) ∨
        e = SystemExit ∧ interrupted (calls (main_loop env m).1) ∧
        _paused (status_updater (main_loop env m).1) = true
    | Break => False
    end).
  { clear. induction env as [|others env IH]; intros m Hr Hp; simpl; [done|].
    set (m1 := with_world (run_ops others (main_world m)) m).
    pose proof (main_iteration_calls m1) as Hit.
    destruct (main_iteration m1) as [m2 ctl]. simpl in Hit.
    destruct ctl as [| |e]; simpl; [|done|].
    - apply IH.
      + destruct Hit as [[-> _] | [[a ->] _]]; by constructor.
      + destruct Hit as [[Hc Hu] | [_ ?]]; [|done]. rewrite Hc, Hu.
        unfold executed. rewrite omap_app. simpl. by rewrite app_nil_r.
    - destruct Hit as [[-> ->] | (-> & [a ->] & ?)]; [by left|right].
      split; [done|]. split; [by exists (calls m), a|done]. }
  apply Hgen; [constructor|done].
Qed.

(** ** Submitting and taking requests *)

(** A registered id refers to an object that exists, with or without
    repeated uuids. *)
Lemma registered_is_allocated resp discard ops u a :
  _request_dict (run_ops ops (RequestManager_init resp discard)) !! u = Some a →
  (a < next_addr (run_ops ops (RequestManager_init resp discard)))%nat.
Proof.
  revert a. induction ops as [|op ops IH] using rev_ind; intros a.
  - simpl. by rewrite lookup_empty.
  - rewrite run_ops_snoc, apply_op_next_addr.
    destruct op as [g now act| |now|b|b]; simpl.
    + destruct (decide (g = u)) as [->|Hne].
      * rewrite lookup_insert_eq. intros [= <-]. lia.
      * rewrite lookup_insert_ne by done. intros Hu%IH. lia.
    + destruct (get_next_request_collections
                  (run_ops ops (RequestManager_init resp discard))) as (-> & _).
      intros Hu%IH. lia.
    + intros Hu%sweep_lookup_Some%IH. lia.
    + intros Hu%IH. lia.
    + unfold heap_execute_try. destruct (execute_try _). simpl.
      intros Hu%IH. lia.
Qed.

(** X5. [create_request] after any history of a fresh manager: it returns
    the uuid of the new request, which is then registered as [PENDING] with
    answer [None] and stands last in the FIFO; and for every other id
    [get_request_status] and [get_answer] return what they returned
    before. *)
Theorem create_request_registers (resp discard : option Z) (ops : list Op)
    (g : string) (now : Z) (act : Action) :
  let w := run_ops ops (RequestManager_init resp discard) in
  let w' := (create_request g now act w).1 in
  (create_request g now act w).2 = g ∧
  get_request_status w' g = Some PENDING ∧
  get_answer w' g = PyNone ∧
  _request_deque w' = _request_deque w ++ [g] ∧
  ∀ u, u ≠ g →
       get_request_status w' u = get_request_status w u ∧
       get_answer w' u = get_answer w u.
Proof.
  intros w w'. unfold get_request_status, get_answer. subst w'. simpl.
  rewrite lookup_insert_eq, fn_lookup_insert. split_and!; [done..|].
  intros u Hu. rewrite lookup_insert_ne by done.
  destruct (_request_dict w !! u) as [a|] eqn:Ha; [|done].
  apply registered_is_allocated in Ha.
  rewrite fn_lookup_insert_ne by (fold w in Ha; lia). done.
Qed.

(** X6. The main loop left alone on a manager whose FIFO refers to
    registered requests only: as long as no action stops the program, [n]
    iterations take the first [n] ids off the FIFO and execute the requests
    they refer to, in the order of the FIFO. *)
Theorem main_loop_drains_fifo (n : nat) (m : Main) :
  fifo_in_map (main_world m) →
  (main_loop (replicate n []) m).2 = Continue →
  _request_deque (main_world (main_loop (replicate n []) m).1)
    = drop n (_request_deque (main_world m)) ∧
  executed (calls (main_loop (replicate n []) m).1)
    = executed (calls m)
      ++ referred (main_world m) (take n (_request_deque (main_world m))).
Proof.
  revert m. induction n as [|n IH]; intros m Hok Hcont; simpl.
  - by rewrite app_nil_r.
  - simpl in Hcont.
    replace (with_world (main_world m) m) with m in * by (by destruct m).
    destruct (get_next_request_cases _ Hok) as
      [[Hq _] | (u & rest & a & Hq & Ha & Hnext)].
    + rewrite main_iteration_idle in * by done.
      destruct (IH (record_call CallSleep m) Hok Hcont) as [-> ->].
      simpl. rewrite Hq, drop_nil, take_nil. simpl.
      unfold executed. rewrite omap_app. simpl. by rewrite !app_nil_r.
    + destruct (main_iteration_request _ _ _ Hnext) as (m2 & Hw & Hres).
      destruct ((execute _).2) as [[]|e]; destruct Hres as (Hit & Hcalls & _);
        rewrite Hit in *; [|done].
      assert (Hcoll : _request_dict (main_world m2) = _request_dict (main_world m) ∧
                      _request_deque (main_world m2) = rest).
      { rewrite Hw, heap_execute_spec. done. }
      destruct Hcoll as [Hd Hq2].
      assert (Hok2 : fifo_in_map (main_world m2)).
      { unfold fifo_in_map in *. rewrite Hd, Hq2. rewrite Hq in Hok.
        by apply Forall_cons in Hok as [_ ?]. }
      destruct (IH m2 Hok2 Hcont) as [-> ->].
      rewrite Hq2, Hq, Hcalls. simpl. split; [done|].
      unfold executed at 1. rewrite omap_app. simpl.
      rewrite Ha, <- (assoc_L (++)). simpl.
      unfold referred, executed. by rewrite Hd.
Qed.

Lemma main_loop_drains_fifo_witness :
  fifo_in_map three_waiting ∧
  (main_loop (replicate 2 []) (Main_start three_waiting fresh_updater)).2 = Continue ∧
  _request_deque
    (main_world (main_loop (replicate 2 []) (Main_start three_waiting fresh_updater)).1)
    = ["r3"] ∧
  executed (calls (main_loop (replicate 2 []) (Main_start three_waiting fresh_updater)).1)
    = [0%nat; 1%nat].
Proof.
  assert (Hok : fifo_in_map three_waiting)
    by (unfold fifo_in_map; apply (bool_decide_unpack _); by vm_compute).
  assert (Hcont : (main_loop (replicate 2 [])
                     (Main_start three_waiting fresh_updater)).2 = Continue)
    by (by vm_compute).
  split; [exact Hok|]. split; [exact Hcont|].
  destruct (main_loop_drains_fifo 2 (Main_start three_waiting fresh_updater) Hok Hcont)
    as [-> ->].
  split; by vm_compute.
Defined.

(** ** The updater at the stop flag *)




(** ** [StatusUpdater.update] *)

Lemma requested_step t :
  requested t →
  (steps_to_body (pc t) = 1%nat ∧ served (S (forced t)) (thread_step false t)) ∨
  (requested (thread_step false t) ∧
   forced (thread_step false t) = forced t ∧
   S (steps_to_body (pc (thread_step false t))) = steps_to_body (pc t)).
Proof.
  destruct t as [[ut rs un ex pa] twu p rf].
  unfold requested, served, forced, thread_step. simpl.
  intros (-> & -> & -> & Hpc).
  destruct p; try done; simpl.
  - by right.
  - left. split; [done|]. case_decide; simpl; split_and!; try done;
      by rewrite ?filter_cons_True, ?filter_cons_False by done.
  - by right.
  - left. split; [done|]. split_and!; try done;
      by rewrite filter_cons_True by done.
  - by right.
Qed.

Lemma served_step n t : served n t → served n (thread_step false t).
Proof.
  destruct t as [[ut rs un ex pa] twu p rf].
  unfold served, forced, thread_step. simpl.
  intros (-> & -> & -> & Hf & Hpc).
  destruct p; try done; simpl;
    try case_decide; simpl; split_and!; try done;
    by rewrite filter_cons_False by done.
Qed.

Lemma served_run n k t :
  served n t → served n (updater_run (replicate k (Step false)) t).
Proof.
  revert t. induction k as [|k IH]; intros t Hs; [done|].
  simpl. apply IH. by apply served_step.
Qed.

Lemma requested_run k : ∀ t,
  requested t →
  (steps_to_body (pc t) ≤ k)%nat ∧
    served (S (forced t)) (updater_run (replicate k (Step false)) t) ∨
  (k < steps_to_body (pc t))%nat ∧
    requested (updater_run (replicate k (Step false)) t) ∧
    forced (updater_run (replicate k (Step false)) t) = forced t ∧
    (steps_to_body (pc (updater_run (replicate k (Step false)) t)) + k
     = steps_to_body (pc t))%nat.
Proof.
  induction k as [|k IH]; intros t Hr.
  - right. simpl. split_and!; try done; try lia.
    destruct Hr as (_ & _ & _ & Hpc). destruct (pc t); simpl; done || lia.
  - simpl. destruct (requested_step t Hr) as [[Hd Hs] | (Hr' & Hf & Hd)].
    + left. split; [lia|]. by apply served_run.
    + destruct (IH _ Hr') as [[Hle Hs] | (Hlt & Hr'' & Hf' & Hd')].
      * left. split; [lia|]. by rewrite <- Hf.
      * right. split_and!; [lia|done|congruence|lia].
Qed.

(** The loop of [update] on a paused updater, every sleep and refresh
    returning: after three steps of the thread the request is served. *)
Lemma update_wait_served (sched : list nat) (t : UpdaterThread) :
  _paused (shared t) = true →
  _executed (shared t) = false →
  pc t ≠ Returned →
  (3 ≤ sum_list sched)%nat →
  (StatusUpdater_update sched t).2 = true ∧
  forced (StatusUpdater_update sched t).1 = S (forced t) ∧
  _update_now (shared (StatusUpdater_update sched t).1) = false ∧
  _executed (shared (StatusUpdater_update sched t).1) = false.
Proof.
  intros Hp He Hpc Hsum. unfold StatusUpdater_update.
  set (t0 := with_shared (update_request (shared t)) t).
  assert (Hr : requested t0) by (by split_and!).
  assert (Hf : forced t0 = forced t) by done.
  assert (Hd : (steps_to_body (pc t0) ≤ sum_list sched)%nat).
  { transitivity 3%nat; [|done]. destruct (pc t0); simpl; lia. }
  rewrite <- Hf. clearbody t0. clear -Hr Hd.
  revert t0 Hr Hd. induction sched as [|k sched IH]; intros t Hr Hd; simpl in *.
  - destruct Hr as (_ & _ & _ & Hpc). destruct (pc t); simpl in Hd; done || lia.
  - destruct Hr as (Hp & Hn & He & Hpc). rewrite He.
    destruct (requested_run k t) as [[Hle Hs] | (Hlt & Hr' & Hf' & Hd')];
      [by split_and!| |].
    + clear IH Hd. revert Hs.
      generalize (updater_run (replicate k (Step false)) t). intros t' Hs.
      destruct Hs as (Hp' & Hn' & He' & Hf' & Hpc').
      destruct sched; simpl; rewrite He'; simpl; by split_and!.
    + rewrite <- Hf'. apply IH; [done|lia].
Qed.

(** A step of the thread of an updater that is not paused, from one of the
    tests of [run], leaves the shared flags as they are. *)
Lemma unpaused_step_shared t :
  _paused (shared t) = false → at_test (pc t) →
  shared (thread_step false t) = shared t ∧ at_test (pc (thread_step false t)) ∧
  refreshes (thread_step false t) = refreshes t.
Proof.
  destruct t as [[ut rs un ex pa] twu p rf]. unfold thread_step. simpl.
  intros -> Hpc. by destruct p.
Qed.

Lemma unpaused_run_shared k : ∀ t,
  _paused (shared t) = false → at_test (pc t) →
  shared (updater_run (replicate k (Step false)) t) = shared t ∧
  at_test (pc (updater_run (replicate k (Step false)) t)) ∧
  refreshes (updater_run (replicate k (Step false)) t) = refreshes t.
Proof.
  induction k as [|k IH]; intros t Hp Hpc; [done|]. simpl.
  destruct (unpaused_step_shared t Hp Hpc) as (Hs & Hpc' & Hr).
  destruct (IH (thread_step false t)) as (-> & ? & ->); [by rewrite Hs|done|].
  by rewrite Hs, Hr.
Qed.

(** X9. [update] called on an updater that is not paused (as it is from
    its construction until the first [pause]) never returns, however long
    the caller waits: the thread goes round the tests of [run] and never
    looks at [_update_now], so [_executed] stays unset. *)
Theorem update_blocks_while_active (update_time resp : option Z) (sched : list nat) :
  (StatusUpdater_update sched
     (UpdaterThread_start (StatusUpdater_init update_time resp))).2 = false ∧
  refreshes (StatusUpdater_update sched
     (UpdaterThread_start (StatusUpdater_init update_time resp))).1 = [].
Proof.
  unfold StatusUpdater_update.
  set (t0 := with_shared _ _).
  assert (Hinv : _paused (shared t0) = false ∧ _executed (shared t0) = false ∧
                 at_test (pc t0) ∧ refreshes t0 = []) by done.
  clearbody t0. revert t0 Hinv.
  induction sched as [|k sched IH]; intros t (Hp & He & Hpc & Hr); simpl; rewrite He.
  - done.
  - apply IH. destruct (unpaused_run_shared k t Hp Hpc) as (Hs & Hpc' & Hr').
    rewrite Hs, Hr'. by split_and!.
Qed.

(** ** [StatusUpdater.update] when a sleep or a refresh raises *)

(** With a sleep length that is not negative and refreshes that return, a
    step of the thread is the step of [thread_step]. *)
Lemma thread_step_or_raise_ok stop refresh t :
  0 ≤ _resp (shared t) → refresh_ok refresh →
  thread_step_or_raise stop refresh t = (thread_step stop t, Ok ()).
Proof.
  intros Hresp Hok. destruct t as [[ut rs un ex pa] twu p rf]. simpl in Hresp.
  unfold thread_step_or_raise, thread_step, sleep, serve_request_or_raise,
    timer_refresh_or_raise, serve_request. simpl. rewrite !Hok.
  destruct p; try done; rewrite decide_False by lia;
    destruct stop, un; simpl; try done; by case_decide.
Qed.

Lemma thread_step_resp stop t :
  _resp (shared (thread_step stop t)) = _resp (shared t).
Proof.
  destruct t as [[ut rs un ex pa] twu p rf]. unfold thread_step. simpl.
  destruct p, stop, pa, un; simpl; try done; by case_decide.
Qed.

Lemma updater_run_resp k : ∀ t,
  _resp (shared (updater_run (replicate k (Step false)) t)) = _resp (shared t).
Proof.
  induction k as [|k IH]; intros t; [done|].
  simpl. by rewrite IH, thread_step_resp.
Qed.

Lemma thread_steps_or_raise_ok steps : ∀ t,
  0 ≤ _resp (shared t) → Forall refresh_ok steps →
  thread_steps_or_raise steps t
  = (updater_run (replicate (length steps) (Step false)) t, Ok ()).
Proof.
  induction steps as [|refresh steps IH]; intros t Hresp Hok; [done|].
  apply Forall_cons in Hok as [Hok1 Hok]. simpl.
  rewrite thread_step_or_raise_ok by done.
  apply IH; [by rewrite thread_step_resp|done].
Qed.

Lemma update_wait_or_raise_ok sched : ∀ t,
  0 ≤ _resp (shared t) → Forall (Forall refresh_ok) sched →
  update_wait_or_raise sched (Ok ()) t
  = ((update_wait (length <$> sched) t).1,
     Ok (update_wait (length <$> sched) t).2).
Proof.
  induction sched as [|steps sched IH]; intros t Hresp Hok; simpl.
  - by destruct (_executed (shared t)).
  - apply Forall_cons in Hok as [Hok1 Hok].
    destruct (_executed (shared t)); [done|].
    unfold sleep. rewrite decide_False by lia.
    rewrite thread_steps_or_raise_ok by done.
    apply IH; [by rewrite updater_run_resp|done].
Qed.

(** X8. [update] called on a paused updater whose thread is running, the
    stop flag down, the sleep length [_resp] not negative and every refresh
    that the thread makes meanwhile returning (the Docker engines answer):
    as soon as the thread has made three steps during the caller's sleeps,
    [update] returns; exactly one forced refresh has then been made, and
    both [_update_now] and [_executed] are cleared again. *)
Theorem update_is_served_while_paused (sched : list (list Refresh))
    (t : UpdaterThread) :
  _paused (shared t) = true →
  _executed (shared t) = false →
  pc t ≠ Returned →
  0 ≤ _resp (shared t) →
  Forall (Forall refresh_ok) sched →
  (3 ≤ sum_list (length <$> sched))%nat →
  (StatusUpdater_update_or_raise sched t).2 = Ok true ∧
  forced (StatusUpdater_update_or_raise sched t).1 = S (forced t) ∧
  _update_now (shared (StatusUpdater_update_or_raise sched t).1) = false ∧
  _executed (shared (StatusUpdater_update_or_raise sched t).1) = false.
Proof.
  intros Hp He Hpc Hresp Hok Hsum. unfold StatusUpdater_update_or_raise.
  rewrite update_wait_or_raise_ok by done. simpl.
  destruct (update_wait_served (length <$> sched) t Hp He Hpc Hsum)
    as (Hret & Hf & Hn & Hx).
  unfold StatusUpdater_update in *. by rewrite Hret.
Qed.

Lemma update_is_served_while_paused_witness :
  _paused (shared (paused_updater_after 7)) = true ∧
  0 ≤ _resp (shared (paused_updater_after 7)) ∧
  (StatusUpdater_update_or_raise [[engines_up]; []; [engines_up; engines_up]]
     (paused_updater_after 7)).2 = Ok true ∧
  refreshes (StatusUpdater_update_or_raise
               [[engines_up]; []; [engines_up; engines_up]]
               (paused_updater_after 7)).1 = [Forced].
Proof.
  assert (Hp : _paused (shared (paused_updater_after 7)) = true) by done.
  assert (Hr : 0 ≤ _resp (shared (paused_updater_after 7))) by (by vm_compute).
  assert (Hok : Forall (Forall refresh_ok)
                  [[engines_up]; []; [engines_up; engines_up]])
    by (repeat constructor).
  assert (H3 : (3 ≤ sum_list (length <$> [[engines_up]; []; [engines_up; engines_up]]))%nat)
    by (simpl; lia).
  split; [exact Hp|]. split; [exact Hr|].
  destruct (update_is_served_while_paused
              [[engines_up]; []; [engines_up; engines_up]]
              (paused_updater_after 7)
              Hp eq_refl ltac:(by vm_compute) Hr Hok H3) as (-> & _).
  split; [done|]. by vm_compute.
Defined.

(** A step of the thread during which the forced refresh would raise sets
    [_executed] no more than it was, and logs no forced refresh. *)
Lemma failing_step_keeps_executed stop refresh t e :
  refresh Forced = Raise e →
  _executed (shared (thread_step_or_raise stop refresh t).1) = _executed (shared t) ∧
  _resp (shared (thread_step_or_raise stop refresh t).1) = _resp (shared t) ∧
  forced (thread_step_or_raise stop refresh t).1 = forced t.
Proof.
  intros Hf. destruct t as [[ut rs un ex pa] twu p rf].
  unfold thread_step_or_raise, serve_request_or_raise, timer_refresh_or_raise,
    sleep, forced. simpl. rewrite Hf.
  destruct p, stop, pa, un; simpl; try done;
    repeat case_decide; simpl; try done;
    destruct (refresh Periodic); simpl; try done;
    by rewrite filter_cons_False by done.
Qed.

Lemma failing_steps_keep_executed steps : ∀ t,
  Forall (λ refresh, ∃ e, refresh Forced = Raise e) steps →
  _executed (shared (thread_steps_or_raise steps t).1) = _executed (shared t) ∧
  _resp (shared (thread_steps_or_raise steps t).1) = _resp (shared t) ∧
  forced (thread_steps_or_raise steps t).1 = forced t.
Proof.
  induction steps as [|refresh steps IH]; intros t Hsteps; [done|].
  apply Forall_cons in Hsteps as [[e He] Hsteps]. simpl.
  destruct (failing_step_keeps_executed false refresh t e He) as (Hx & Hr & Hf).
  destruct (thread_step_or_raise false refresh t) as [t' [[]|e']]; simpl in *.
  - destruct (IH t' Hsteps) as (-> & -> & ->). done.
  - done.
Qed.

Lemma update_wait_polls_on sched : ∀ thread t,
  _executed (shared t) = false →
  0 ≤ _resp (shared t) →
  Forall (Forall (λ refresh, ∃ e, refresh Forced = Raise e)) sched →
  (update_wait_or_raise sched thread t).2 = Ok false ∧
  forced (update_wait_or_raise sched thread t).1 = forced t ∧
  _executed (shared (update_wait_or_raise sched thread t).1) = false.
Proof.
  induction sched as [|steps sched IH]; intros thread t Hx Hresp Hsched; simpl.
  - by rewrite Hx.
  - apply Forall_cons in Hsched as [Hsteps Hsched].
    rewrite Hx. unfold sleep. rewrite decide_False by lia.
    destruct thread as [[]|e]; [|by apply IH].
    destruct (failing_steps_keep_executed steps t Hsteps) as (Hx' & Hr' & Hf').
    destruct (thread_steps_or_raise steps t) as [t' thread']. simpl in *.
    destruct (IH thread' t') as (-> & -> & ->); [congruence|lia|done|].
    done.
Qed.

(** X17. [update] while the Docker engines fail: if every forced refresh
    that the thread attempts raises, then, however long the caller polls
    and whatever state the updater is in, [update] does not return; the
    exception ends the thread before it sets [_executed], no forced refresh
    is made, and [_executed] stays unset. *)
Theorem update_hangs_when_refresh_raises (sched : list (list Refresh))
    (t : UpdaterThread) :
  _executed (shared t) = false →
  0 ≤ _resp (shared t) →
  Forall (Forall (λ refresh, ∃ e, refresh Forced = Raise e)) sched →
  (StatusUpdater_update_or_raise sched t).2 = Ok false ∧
  forced (StatusUpdater_update_or_raise sched t).1 = forced t ∧
  _executed (shared (StatusUpdater_update_or_raise sched t).1) = false.
Proof.
  intros Hx Hresp Hsched. unfold StatusUpdater_update_or_raise.
  destruct (update_wait_polls_on sched (Ok ())
              (with_shared (update_request (shared t)) t))
    as (H1 & H2 & H3); done.
Qed.

Lemma update_hangs_when_refresh_raises_witness :
  0 ≤ _resp (shared (paused_updater_after 7)) ∧
  (thread_steps_or_raise [engines_down; engines_down; engines_down]
     (with_shared (update_request (shared (paused_updater_after 7)))
        (paused_updater_after 7))).2 = Raise DockerError ∧
  (StatusUpdater_update_or_raise
     (replicate 50 [engines_down; engines_down; engines_down])
     (paused_updater_after 7)).2 = Ok false.
Proof.
  assert (Hr : 0 ≤ _resp (shared (paused_updater_after 7))) by (by vm_compute).
  assert (Hdown : Forall (Forall (λ refresh : Refresh, ∃ e, refresh Forced = Raise e))
                    (replicate 50 [engines_down; engines_down; engines_down])).
  { apply Forall_replicate. repeat constructor; by exists DockerError. }
  split; [exact Hr|]. split; [by vm_compute|].
  exact (proj1 (update_hangs_when_refresh_raises _ (paused_updater_after 7)
                  eq_refl Hr Hdown)).
Defined.

(** ** The status object *)

Lemma init_images hs : ∀ (m : gmap string (list string)) host,
  foldl (λ m host, <[host := []]> m) m hs !! host
  = if decide (host ∈ hs) then Some [] else m !! host.
Proof.
  induction hs as [|h hs IH]; intros m host; simpl; [done|].
  rewrite IH. destruct (decide (host ∈ hs)) as [Hin|Hnin].
  - by rewrite decide_True by (by right).
  - destruct (decide (host = h)) as [->|Hne].
    + rewrite decide_True by left. by rewrite lookup_insert_eq.
    + rewrite decide_False by (by intros [?|?]%elem_of_cons).
      by rewrite lookup_insert_ne.
Qed.

(** The loop over the hosts changes no field but [images]. *)
Lemma update_images_fields config d hs : ∀ s,
  let s' := (DockerhoodStatus.update_images config d hs s).1 in
  linker_exists s' = linker_exists s ∧
  linker_is_running s' = linker_is_running s ∧
  slurm_master_is_running s' = slurm_master_is_running s ∧
  worker_list s' = worker_list s.
Proof.
  induction hs as [|host hs IH]; intros s; simpl; [done|].
  destruct (image_list d host) as [tags|e]; simpl; [|done].
  match goal with
  | |- context [DockerhoodStatus.update_images config d hs ?s0] =>
      destruct (IH s0) as (-> & -> & -> & ->)
  end.
  done.
Qed.

Lemma update_images_ok config d hs : ∀ s,
  hs ⊆ hosts config → images_ok config s →
  images_ok config (DockerhoodStatus.update_images config d hs s).1.
Proof.
  induction hs as [|host hs IH]; intros s Hhs Hs; simpl; [done|].
  destruct (image_list d host) as [tags|e]; simpl; [|done].
  apply IH; [by intros h Hh; apply Hhs; right|].
  destruct Hs as [Hdom Htags]. split; simpl.
  - intros h. destruct (decide (h = host)) as [->|Hne].
    + rewrite lookup_insert_eq. split; [intros _; apply Hhs; left|by eexists].
    + by rewrite lookup_insert_ne.
  - intros h ts i. destruct (decide (h = host)) as [->|Hne].
    + rewrite lookup_insert_eq. intros [= <-] Hi.
      by apply list_elem_of_filter in Hi as [? _].
    + rewrite lookup_insert_ne by done. apply Htags.
Qed.

Lemma update_images_result config d s :
  images_ok config s → images_ok config (DockerhoodStatus.update config d s).1.
Proof.
  intros Hs. unfold DockerhoodStatus.update.
  destruct (container_checks.linker_exists config d); simpl; [|done].
  destruct (container_checks.linker_is_running config d); simpl; [|done].
  destruct (container_checks.slurm_master_host config d) as [h|]; simpl; [|done].
  destruct (container_checks.slurm_master_is_running config d); simpl;
    [|by destruct h].
  destruct (container_checks.worker_list d) as [ws|]; simpl; [|by destruct h].
  apply update_images_ok; [done|]. by destruct h.
Qed.

Lemma status_after_images_ok config d0 ds :
  images_ok config (status_after config d0 ds).
Proof.
  unfold status_after. induction ds as [|d ds IH] using rev_ind.
  - simpl. apply update_images_result. split; simpl.
    + intros host. rewrite init_images. case_decide; [done|].
      rewrite lookup_empty. split; [by intros []|done].
    + intros host tags i. rewrite init_images. case_decide.
      * intros [= <-]. by intros ?%elem_of_nil.
      * by rewrite lookup_empty.
  - rewrite foldl_snoc. by apply update_images_result.
Qed.

Lemma images_part_returns imgs hs : ∀ output,
  (∀ host, host ∈ hs → is_Some (imgs !! host)) →
  ∃ text, images_part imgs hs output = Ok text.
Proof.
  induction hs as [|host hs IH]; intros output Hhs; simpl; [by eexists|].
  destruct (Hhs host) as [tags ->]; [by left|].
  apply IH. intros h Hh. apply Hhs. by right.
Qed.

(** X10. After its construction and after any number of calls of [update],
    each against any answers of the Docker engines (raising ones included),
    the status holds in [images] a list for each configured host and for
    nothing else, every tag in the lists starts with the project's name
    followed by an underscore, and [__str__] returns a text: its
    [self.images[host]] finds every host. *)
Theorem status_lists_every_host (host_str : string → string) (config : Config)
    (d0 : Docker) (ds : list Docker) :
  images_ok config (status_after config d0 ds) ∧
  ∃ text, __str__ host_str config (status_after config d0 ds) = Ok text.
Proof.
  pose proof (status_after_images_ok config d0 ds) as Hok.
  split; [done|]. unfold __str__. apply images_part_returns.
  intros host Hhost. by apply Hok.
Qed.

(** The text of a status built against [two_hosts_docker]. *)
Example two_hosts_text :
  ∃ text, __str__ id two_hosts (status_after two_hosts two_hosts_docker []) = Ok text ∧
    split_on newline text =
      ["LINKER";
       "Linker exists:           True";
       "Linker is running:       False";
       "";
       "SLURM MASTER";
       "Slurm master exists:     True";
       "Slurm master is running: True";
       "Slurm master on host:    beta";
       "";
       "WORKERS";
       "- alpha";
       "    * dh_main_worker002 (active)";
       "- beta";
       "    * dh_main_worker001 (stopped)";
       "";
       "IMAGES";
       "- alpha";
       "    * dh_worker:latest";
       "- beta";
       ""].
Proof. eexists. split; [by vm_compute|]. by vm_compute. Qed.

Lemma first_host_with_elem d name hs h :
  container_checks.first_host_with d name hs = Ok (Some h) → h ∈ hs.
Proof.
  induction hs as [|h0 hs IH]; simpl; [done|].
  destruct (container_list d h0) as [l|]; [|done].
  case_bool_decide; [intros [= ->]; by left|right; by apply IH].
Qed.

Lemma update_master_ok config d s :
  master_ok config s → master_ok config (DockerhoodStatus.update config d s).1.
Proof.
  intros Hs. unfold DockerhoodStatus.update.
  destruct (container_checks.linker_exists config d); simpl; [|done].
  destruct (container_checks.linker_is_running config d); simpl; [|done].
  destruct (container_checks.slurm_master_host config d) as [h|] eqn:Hh;
    simpl; [|done].
  assert (Hin : ∀ host, h = Some host → host ∈ hosts config).
  { intros host ->. by apply first_host_with_elem in Hh. }
  unfold container_checks.slurm_master_is_running. rewrite Hh.
  destruct h as [host|]; simpl.
  - destruct (active_container_list d host) as [names|]; simpl;
      [|by split; [|intros ? [= <-]; apply Hin]].
    destruct (container_checks.worker_list d) as [ws|]; simpl;
      [|by split; [|intros ? [= <-]; apply Hin]].
    match goal with
    | |- context [DockerhoodStatus.update_images config d (hosts config) ?s0] =>
        unfold master_ok;
        destruct (update_images_master config d (hosts config) s0) as [-> ->];
        destruct (update_images_fields config d (hosts config) s0)
          as (_ & _ & -> & _)
    end.
    simpl. by split; [|intros ? [= <-]; apply Hin].
  - destruct (container_checks.worker_list d) as [ws|]; simpl; [|done].
    match goal with
    | |- context [DockerhoodStatus.update_images config d (hosts config) ?s0] =>
        unfold master_ok;
        destruct (update_images_master config d (hosts config) s0) as [-> ->];
        destruct (update_images_fields config d (hosts config) s0)
          as (_ & _ & -> & _)
    end.
    done.
Qed.

(** X11. After the construction of a status and after any number of calls
    of [update], returning or raising, each made against engines whose
    answers do not change during the call: a status that says the master is
    running also says that it exists, and the host it names for the master
    is one of the configured hosts. *)
Theorem running_master_exists (config : Config) (d0 : Docker) (ds : list Docker) :
  master_ok config (status_after config d0 ds).
Proof.
  unfold status_after. induction ds as [|d ds IH] using rev_ind.
  - simpl. by apply update_master_ok.
  - rewrite foldl_snoc. by apply update_master_ok.
Qed.

(** ** [slurm_master_host] *)

Lemma first_host_with_Some d name hs h :
  container_checks.first_host_with d name hs = Ok (Some h) ↔
  ∃ pre post, hs = pre ++ h :: post ∧ Forall (lacks d name) pre ∧
    ∃ names, container_list d h = Ok names ∧ name ∈ names.
Proof.
  induction hs as [|h0 hs IH]; simpl.
  - split; [done|]. intros (pre & post & Heq & _). by destruct pre.
  - destruct (container_list d h0) as [l|e] eqn:Hl.
    + case_bool_decide as Hin.
      * split.
        -- intros [= ->]. exists [], hs. split_and!; [done|constructor|by eexists].
        -- intros (pre & post & Heq & Hpre & Hh).
           destruct pre as [|p pre]; simplify_eq/=; [done|].
           apply Forall_cons in Hpre as [(l' & Hl' & Hnin) _]. congruence.
      * rewrite IH. split.
        -- intros (pre & post & -> & Hpre & Hh).
           exists (h0 :: pre), post. split_and!; [done| |done].
           constructor; [by exists l|done].
        -- intros (pre & post & Heq & Hpre & (names & Hnames & Hname)).
           destruct pre as [|p pre]; simplify_eq/=; [congruence|].
           apply Forall_cons in Hpre as [_ Hpre].
           exists pre, post. split_and!; [done|done|by eexists].
    + split; [done|]. intros (pre & post & Heq & Hpre & (names & Hnames & _)).
      destruct pre as [|p pre]; simplify_eq/=; [congruence|].
      apply Forall_cons in Hpre as [(l' & Hl' & _) _]. congruence.
Qed.

Lemma first_host_with_None d name hs :
  container_checks.first_host_with d name hs = Ok None ↔
  Forall (lacks d name) hs.
Proof.
  induction hs as [|h0 hs IH]; simpl; [by split; [constructor|]|].
  destruct (container_list d h0) as [l|e] eqn:Hl.
  - case_bool_decide as Hin.
    + split; [done|]. intros [(l' & Hl' & Hnin) _]%Forall_cons. congruence.
    + rewrite IH. split.
      * intros Hhs. constructor; [by exists l|done].
      * by intros [_ ?]%Forall_cons.
  - split; [done|]. intros [(l' & Hl' & _) _]%Forall_cons. congruence.
Qed.

(** X12. [slurm_master_host()] returns the first configured host that lists
    the container of the master, provided every host before it answered
    (without the container); it returns [None] exactly when every configured
    host answered and none lists the container. *)
Theorem slurm_master_host_is_first (config : Config) (d : Docker) :
  (∀ h, container_checks.slurm_master_host config d = Ok (Some h) ↔
        ∃ pre post, hosts config = pre ++ h :: post ∧
          Forall (lacks d (project config +:+ "_slurm_master")) pre ∧
          ∃ names, container_list d h = Ok names ∧
            (project config +:+ "_slurm_master") ∈ names) ∧
  (container_checks.slurm_master_host config d = Ok None ↔
   Forall (lacks d (project config +:+ "_slurm_master")) (hosts config)).
Proof.
  split; [intros h; apply first_host_with_Some|apply first_host_with_None].
Qed.

(** ** The console waiting for its request *)

Lemma status_is_code w u s :
  status_code <$> get_request_status w u = Some (status_code s) ↔
  get_request_status w u = Some s.
Proof.
  destruct (get_request_status w u) as [s'|]; simpl; [|done].
  split; [intros [= H]; by apply status_code_inj in H as ->|by intros [= ->]].
Qed.

(** An id that is registered after some operations, none of which
    registers it, was registered before them, for the same object. *)
Lemma lookup_before ops : ∀ w u a,
  u ∉ issued ops →
  _request_dict (run_ops ops w) !! u = Some a →
  _request_dict w !! u = Some a.
Proof.
  induction ops as [|op ops IH] using rev_ind; intros w u a Hu Ha; [done|].
  rewrite run_ops_snoc in Ha. rewrite issued_app in Hu.
  apply not_elem_of_app in Hu as [Hu1 Hu2].
  apply IH; [done|]. destruct op as [g now act| |now|b|b]; simpl in *.
  - rewrite lookup_insert_ne in Ha; [done|]. intros ->. apply Hu2. by left.
  - by destruct (get_next_request_collections (run_ops ops w)) as (<- & _).
  - by apply sweep_lookup_Some in Ha.
  - done.
  - unfold heap_execute_try in Ha. by destruct (execute_try _).
Qed.

(** An existing object on which [execute] is called at most once is what
    the halves of [execute] run so far make of it. *)
Lemma object_tracks ops : ∀ w a,
  (a < next_addr w)%nat →
  executed_at_most_once a ops →
  object_after (exec_history a ops) (heap w a) (heap (run_ops ops w) a).
Proof.
  induction ops as [|op ops IH] using rev_ind; intros w a Ha Honce; [done|].
  pose proof (at_most_once_prefix _ _ _ Honce) as Honce'.
  specialize (IH w a Ha Honce').
  unfold executed_at_most_once in Honce.
  rewrite run_ops_snoc. rewrite exec_history_app in *.
  assert (Ha' : (a < next_addr (run_ops ops w))%nat) by by apply run_ops_allocated.
  destruct (exec_history a [op]) as [|p l] eqn:Hop.
  - rewrite app_nil_r. by rewrite apply_op_frame.
  - destruct Honce as [k Hk].
    destruct op as [g now act| |now|b|b]; simpl in Hop; try done;
      case_decide; simplify_eq/=.
    + rewrite fn_lookup_insert.
      destruct (exec_history a ops) as [|x [|y h]]; simplify_eq/=;
        [by rewrite IH|by destruct h].
    + unfold heap_execute_try.
      destruct (execute_try (heap (run_ops ops w) a)) as [r res] eqn:Htry.
      simpl. rewrite fn_lookup_insert.
      destruct (exec_history a ops) as [|x [|y h]]; simplify_eq/=;
        [|by destruct h].
      unfold execute. rewrite <- IH, Htry. done.
Qed.

Lemma wait_while_exits test pre : ∀ post w,
  pre ≠ [] →
  test (run_ops (concat pre) w) = false →
  ∃ used rest,
    pre = used ++ rest ∧ used ≠ [] ∧
    wait_while test (pre ++ post) w = Some (run_ops (concat used) w, rest ++ post) ∧
    test (run_ops (concat used) w) = false.
Proof.
  induction pre as [|others pre IH]; intros post w Hne Hend; [done|].
  simpl. destruct (test (run_ops others w)) eqn:Hz.
  - destruct pre as [|o' pre'].
    + simpl in Hend. rewrite app_nil_r in Hend. congruence.
    + change (concat (others :: o' :: pre')) with (others ++ concat (o' :: pre')) in Hend.
      rewrite run_ops_app in Hend.
      destruct (IH post (run_ops others w)) as (used & rest & Heq & Hu & Hw & Hs);
        [done|done|].
      exists (others :: used), rest. split_and!.
      * by rewrite Heq.
      * done.
      * rewrite Hw. simpl. by rewrite run_ops_app.
      * simpl. by rewrite run_ops_app.
  - exists [others], pre. simpl. by rewrite app_nil_r.
Qed.

Section Waiting.

Variables (g : string) (now : Z) (act : Action) (w : World) (F : list Op).

Hypothesis Hfresh : g ∉ issued F.

Local Abbreviation addr := (next_addr w).
Local Abbreviation W1 := (create_request g now act w).1.
Local Abbreviation R0 := (Request_init g now act).

Lemma created_lookup Q S a' :
  F = Q ++ S →
  _request_dict (run_ops Q W1) !! g = Some a' → a' = addr.
Proof.
  intros -> Ha. rewrite issued_app in Hfresh.
  apply not_elem_of_app in Hfresh as [Hq _].
  apply lookup_before in Ha; [|done]. simpl in Ha.
  rewrite lookup_insert_eq in Ha. by injection Ha.
Qed.

Lemma unknown_stays Q Q' S :
  F = Q ++ Q' ++ S →
  _request_dict (run_ops Q W1) !! g = None →
  _request_dict (run_ops (Q ++ Q') W1) !! g = None.
Proof.
  intros -> Hq. rewrite !issued_app in Hfresh.
  apply not_elem_of_app in Hfresh as [_ [Hq' _]%not_elem_of_app].
  rewrite run_ops_app.
  destruct (_request_dict (run_ops Q' (run_ops Q W1)) !! g) as [a'|] eqn:Ha; [|done].
  apply lookup_before in Ha; [congruence|done].
Qed.

Lemma pending_object Q S :
  F = Q ++ S → exec_history addr Q = [] →
  heap (run_ops Q W1) addr = R0.
Proof.
  intros _ Hq. rewrite run_ops_frame; [|simpl; lia|done].
  simpl. by rewrite fn_lookup_insert.
Qed.

Lemma read_result_unknown Q o1 o2 o3 l S :
  F = Q ++ o1 ++ o2 ++ o3 ++ S →
  _request_dict (run_ops Q W1) !! g = None →
  ∃ w', read_result g (o1 :: o2 :: o3 :: l) (run_ops Q W1) = Some (w', (3, PyNone)) ∧
    _request_dict w' !! g = None.
Proof.
  intros HF Hq. unfold read_result. cbv zeta. rewrite <- !run_ops_app.
  assert (Hd2 : _request_dict (run_ops (Q ++ o1 ++ o2) W1) !! g = None).
  { apply (unknown_stays Q (o1 ++ o2) (o3 ++ S)); [|done].
    rewrite HF, <- ?(assoc_L (++)); done. }
  assert (Hd3 : _request_dict (run_ops ((Q ++ o1 ++ o2) ++ o3) W1) !! g = None).
  { apply (unknown_stays _ _ S); [|done]. rewrite HF, <- ?(assoc_L (++)); done. }
  unfold status_is.
  rewrite bool_decide_eq_false_2 by (unfold get_request_status; by rewrite Hd2).
  eexists. split; [|exact Hd3]. unfold get_answer. by rewrite Hd3.
Qed.

(** A request that leaves the registry before its action was called: the
    console is told it was executed. *)
Lemma ask_evicted pre post :
  F = concat (pre ++ post) →
  exec_history addr (concat pre) = [] →
  _request_dict (run_ops (concat pre) W1) !! g = None →
  (4 ≤ length post)%nat →
  ∃ w', _ask_for_request g now act (pre ++ post) w = Some (w', (3, PyNone)) ∧
    _request_dict w' !! g = None.
Proof.
  intros HF Hpre Hgone Hpost.
  unfold _ask_for_request.
  change (create_request g now act w) with (W1, g). cbv beta iota.
  assert (Hne : pre ≠ []).
  { intros ->. simpl in Hgone. by rewrite lookup_insert_eq in Hgone. }
  destruct (wait_while_exits (status_is 1 g) pre post W1 Hne)
    as (used1 & rest1 & Heq1 & Hu1 & -> & Hs1).
  { apply bool_decide_eq_false. unfold get_request_status. by rewrite Hgone. }
  apply bool_decide_eq_false in Hs1.
  assert (Hd1 : _request_dict (run_ops (concat used1) W1) !! g = None).
  { destruct (_request_dict (run_ops (concat used1) W1) !! g) as [a'|] eqn:Ha; [|done].
    exfalso. apply Hs1.
    assert (HF1 : F = concat used1 ++ concat rest1 ++ concat post)
      by (by rewrite HF, Heq1, !concat_app, <- (assoc_L (++))).
    apply (created_lookup _ _ _ HF1) in Ha as Heq. subst a'.
    unfold get_request_status. rewrite Ha.
    rewrite (pending_object _ _ HF1); [done|].
    rewrite Heq1, concat_app, exec_history_app in Hpre.
    by apply app_eq_nil in Hpre as [? _]. }
  destruct post as [|o post']; [simpl in Hpost; lia|].
  rewrite (cons_middle o rest1 post'), (assoc_L (++)).
  assert (HF2 : F = concat used1 ++ concat (rest1 ++ [o]) ++ concat post').
  { rewrite HF, Heq1, !concat_app. simpl. rewrite app_nil_r.
    by rewrite <- !(assoc_L (++)). }
  destruct (wait_while_exits (status_is 2 g) (rest1 ++ [o]) post'
              (run_ops (concat used1) W1))
    as (used2 & rest2 & Heq2 & Hu2 & -> & Hs2).
  { by destruct rest1. }
  { apply bool_decide_eq_false. rewrite <- run_ops_app. unfold get_request_status.
    by rewrite (unknown_stays _ _ _ HF2 Hd1). }
  rewrite <- run_ops_app.
  destruct (rest2 ++ post') as [|o1 [|o2 [|o3 l]]] eqn:Htail;
    try (apply (f_equal length) in Htail; rewrite length_app in Htail;
         simpl in *; lia).
  assert (HF3 : F = (concat used1 ++ concat used2) ++ o1 ++ o2 ++ o3 ++ concat l).
  { rewrite HF2, Heq2, concat_app, <- !(assoc_L (++)).
    rewrite <- concat_app, Htail. done. }
  apply (read_result_unknown _ _ _ _ _ _ HF3).
  apply (unknown_stays _ _ (concat rest2 ++ concat post')); [|done].
  by rewrite HF2, Heq2, concat_app, <- !(assoc_L (++)).
Qed.

Hypothesis Honce : executed_at_most_once addr F.

Lemma created_object Q S :
  F = Q ++ S →
  object_after (exec_history addr Q) R0 (heap (run_ops Q W1) addr).
Proof.
  intros ->. apply at_most_once_prefix in Honce.
  pose proof (object_tracks Q W1 addr) as H. simpl in H.
  rewrite fn_lookup_insert in H. apply H; [lia|done].
Qed.

Lemma complete_stays Q Q' S :
  F = Q ++ Q' ++ S →
  exec_history addr Q = [PhaseBegin; PhaseTry] →
  exec_history addr (Q ++ Q') = [PhaseBegin; PhaseTry].
Proof.
  intros -> Hq. destruct Honce as [k Hk].
  rewrite !exec_history_app, Hq in Hk. rewrite exec_history_app, Hq.
  destruct (exec_history addr Q') as [|p l]; [done|]. simplify_eq/=.
Qed.

Lemma through_stays Q Q' S :
  F = Q ++ Q' ++ S → through g now act w Q → through g now act w (Q ++ Q').
Proof.
  intros HF [Hq|Hq]; [left; by eapply unknown_stays|right; by eapply complete_stays].
Qed.

Lemma through_view Q S :
  F = Q ++ S → through g now act w Q →
  _request_dict (run_ops Q W1) !! g = None ∨
  _request_dict (run_ops Q W1) !! g = Some addr ∧
  heap (run_ops Q W1) addr = (execute R0).1.
Proof.
  intros HF [Hq|Hq]; [by left|].
  destruct (_request_dict (run_ops Q W1) !! g) as [a'|] eqn:Ha; [right|by left].
  apply (created_lookup _ _ _ HF) in Ha as Heq. subst a'. split; [done|].
  pose proof (created_object _ _ HF) as Hobj. by rewrite Hq in Hobj.
Qed.

Lemma execute_status_report :
  status_code (status (execute R0).1) = (report act).1 ∧
  (status (execute R0).1 ≠ ERROR → answer (execute R0).1 = (report act).2) ∧
  (status (execute R0).1 = ERROR → (report act).2 = PyNone).
Proof.
  unfold report. destruct (act ()) as [v| |frames] eqn:Hact.
  - by rewrite (execute_returns R0 v).
  - by rewrite (execute_system_exit R0).
  - destruct (execute_error R0 frames) as (line & -> & _); done.
Qed.

Lemma through_not_waiting Q S z :
  F = Q ++ S → through g now act w Q → z = 1 ∨ z = 2 →
  status_code <$> get_request_status (run_ops Q W1) g ≠ Some z.
Proof.
  intros HF Hq Hz. unfold get_request_status.
  destruct (through_view _ _ HF Hq) as [->|[-> ->]]; [done|]. simpl.
  destruct execute_status_report as (-> & _). unfold report.
  destruct (act ()); simpl; intros [= <-]; by destruct Hz.
Qed.

Lemma read_result_through Q o1 o2 o3 l S :
  F = Q ++ o1 ++ o2 ++ o3 ++ S → through g now act w Q →
  ∃ w' res,
    read_result g (o1 :: o2 :: o3 :: l) (run_ops Q W1) = Some (w', res) ∧
    (_request_dict w' !! g = None ∧ res = (3, PyNone) ∨
     _request_dict w' !! g = Some addr ∧
     heap w' addr = (execute R0).1 ∧
     res = report act).
Proof.
  intros HF Hq. unfold read_result. cbv zeta.
  rewrite <- !run_ops_app.
  assert (HF2 : F = (Q ++ o1 ++ o2) ++ o3 ++ S)
    by (rewrite HF, <- ?(assoc_L (++)); done).
  assert (HF3 : F = ((Q ++ o1 ++ o2) ++ o3) ++ S)
    by (rewrite HF, <- ?(assoc_L (++)); done).
  assert (H2 : through g now act w (Q ++ o1 ++ o2)).
  { apply (through_stays Q (o1 ++ o2) (o3 ++ S)); [|done].
    rewrite HF, <- ?(assoc_L (++)); done. }
  assert (H3 : through g now act w ((Q ++ o1 ++ o2) ++ o3))
    by (by apply (through_stays _ _ S)).
  destruct execute_status_report as (Hcode & Hans & Herr).
  destruct (through_view _ _ HF2 H2) as [Hd2|[Hd2 Hh2]].
  - unfold status_is.
    rewrite bool_decide_eq_false_2 by (unfold get_request_status; by rewrite Hd2).
    eexists _, _. split; [done|]. left.
    assert (Hd3 : _request_dict (run_ops ((Q ++ o1 ++ o2) ++ o3) W1) !! g = None)
      by (by apply (unknown_stays _ _ S)).
    split; [done|]. unfold get_answer. by rewrite Hd3.
  - unfold status_is. case_bool_decide as Hz.
    + eexists _, _. split; [done|]. right. split_and!; [done..|].
      unfold get_request_status in Hz. rewrite Hd2, Hh2 in Hz. simpl in Hz.
      injection Hz as Hz. rewrite Hcode in Hz.
      rewrite (surjective_pairing (report act)), Hz. f_equal.
      symmetry. apply Herr.
      destruct (status (execute R0).1); simpl in *; congruence.
    + eexists _, _. split; [done|].
      assert (Hne : status (execute R0).1 ≠ ERROR).
      { intros He. apply Hz. unfold get_request_status. by rewrite Hd2, Hh2, He. }
      destruct (through_view _ _ HF3 H3) as [Hd3|[Hd3 Hh3]].
      * left. split; [done|]. unfold get_answer. by rewrite Hd3.
      * right. split_and!; [done..|]. unfold get_answer. rewrite Hd3, Hh3.
        rewrite (surjective_pairing (report act)), <- Hcode, <- (Hans Hne).
        f_equal.
        destruct (execute_outcomes R0) as [(r' & Hex & [H|H])|(r' & Hex & H & _)];
          rewrite Hex in *; simpl in *; rewrite H in *; done.
Qed.

(** A request whose action is run once, to the end: the console is told
    how the action ended, unless the request has left the registry. *)
Lemma ask_served pre post :
  F = concat (pre ++ post) →
  exec_history addr (concat pre) = [PhaseBegin; PhaseTry] →
  (4 ≤ length post)%nat →
  ∃ w' res,
    _ask_for_request g now act (pre ++ post) w = Some (w', res) ∧
    (_request_dict w' !! g = None ∧ res = (3, PyNone) ∨
     _request_dict w' !! g = Some addr ∧
     heap w' addr = (execute R0).1 ∧
     res = report act).
Proof.
  intros HF Hpre Hpost.
  unfold _ask_for_request.
  change (create_request g now act w) with (W1, g). cbv beta iota.
  assert (Hne : pre ≠ []) by (by intros ->).
  assert (HF0 : F = concat pre ++ concat post) by (by rewrite HF, concat_app).
  assert (Hthrough : through g now act w (concat pre)) by (by right).
  destruct (wait_while_exits (status_is 1 g) pre post W1 Hne)
    as (used1 & rest1 & Heq1 & Hu1 & -> & Hs1).
  { apply bool_decide_eq_false.
    apply (through_not_waiting _ _ _ HF0 Hthrough). by left. }
  apply bool_decide_eq_false in Hs1.
  destruct post as [|o post']; [simpl in Hpost; lia|].
  rewrite (cons_middle o rest1 post'), (assoc_L (++)).
  assert (HF2 : F = concat used1 ++ concat (rest1 ++ [o]) ++ concat post').
  { rewrite HF, Heq1, !concat_app. simpl. rewrite app_nil_r.
    by rewrite <- !(assoc_L (++)). }
  assert (HF2' : F = (concat used1 ++ concat (rest1 ++ [o])) ++ concat post')
    by (by rewrite HF2, <- (assoc_L (++))).
  assert (Hthrough2 : through g now act w (concat used1 ++ concat (rest1 ++ [o]))).
  { rewrite concat_app, (assoc_L (++)), <- concat_app, <- Heq1. simpl.
    rewrite app_nil_r.
    apply (through_stays _ _ (concat post')); [|done].
    rewrite HF0. simpl. done. }
  destruct (wait_while_exits (status_is 2 g) (rest1 ++ [o]) post'
              (run_ops (concat used1) W1))
    as (used2 & rest2 & Heq2 & Hu2 & -> & Hs2).
  { by destruct rest1. }
  { apply bool_decide_eq_false. rewrite <- run_ops_app.
    apply (through_not_waiting _ _ _ HF2' Hthrough2). by right. }
  apply bool_decide_eq_false in Hs2.
  rewrite <- run_ops_app in *.
  destruct (rest2 ++ post') as [|o1 [|o2 [|o3 l]]] eqn:Htail;
    try (apply (f_equal length) in Htail; rewrite length_app in Htail;
         simpl in *; lia).
  assert (HF3 : F = (concat used1 ++ concat used2) ++ o1 ++ o2 ++ o3 ++ concat l).
  { rewrite HF2, Heq2, concat_app, <- !(assoc_L (++)).
    rewrite <- concat_app, Htail. done. }
  assert (HF3' : F = concat used1 ++ concat used2 ++ o1 ++ o2 ++ o3 ++ concat l)
    by (by rewrite HF3, <- (assoc_L (++))).
  apply (read_result_through _ _ _ _ _ _ HF3).
  (* the request is through when the second loop ends *)
  destruct (_request_dict (run_ops (concat used1 ++ concat used2) W1) !! g)
    as [a'|] eqn:Ha; [|by left].
  right.
  apply (created_lookup _ _ _ HF3) in Ha as Heq. subst a'.
  assert (Ha1 : _request_dict (run_ops (concat used1) W1) !! g = Some addr).
  { rewrite run_ops_app in Ha. apply lookup_before in Ha; [done|].
    intros Hin. apply Hfresh. rewrite HF3', !issued_app.
    apply elem_of_app. right. apply elem_of_app. by left. }
  pose proof (created_object _ _ HF3') as Hobj1.
  pose proof (created_object _ _ HF3) as Hobj2.
  unfold get_request_status in Hs1, Hs2. rewrite Ha1 in Hs1. rewrite Ha in Hs2.
  assert (Honce2 : executed_at_most_once addr (concat used1 ++ concat used2)).
  { apply (at_most_once_prefix _ _ (o1 ++ o2 ++ o3 ++ concat l)).
    by rewrite <- HF3. }
  rewrite exec_history_app in *.
  destruct (at_most_once_cases _ _ Honce2) as [Hh|[Hh|Hh]];
    rewrite exec_history_app in Hh; [| |done].
  - apply app_eq_nil in Hh as [Hh1 _]. rewrite Hh1 in Hobj1.
    unfold object_after in Hobj1. by rewrite Hobj1 in Hs1.
  - rewrite Hh in Hobj2. unfold object_after in Hobj2. by rewrite Hobj2 in Hs2.
Qed.

End Waiting.

(** X13. The console's [_ask_for_request], its request being registered
    under an id nobody else is given and [execute] being called once on it:
    once the action has been run to its end, the call returns within four
    more of the console's reads. It returns [(3, v)] if the action returned
    [v], [(-1, None)] if the action raised an error, [(3, None)] if the
    action raised [SystemExit], and also [(3, None)] if the request is no
    longer registered at the last read. *)
Theorem ask_for_request_reports (g : string) (now : Z) (act : Action)
    (pre post : list (list Op)) (w : World) :
  g ∉ issued (concat (pre ++ post)) →
  executed_at_most_once (next_addr w) (concat (pre ++ post)) →
  exec_history (next_addr w) (concat pre) = [PhaseBegin; PhaseTry] →
  (4 ≤ length post)%nat →
  ∃ w' res,
    _ask_for_request g now act (pre ++ post) w = Some (w', res) ∧
    (_request_dict w' !! g = None ∧ res = (3, PyNone) ∨
     _request_dict w' !! g = Some (next_addr w) ∧
     heap w' (next_addr w) = (execute (Request_init g now act)).1 ∧
     res = report act).
Proof.
  intros Hfresh Honce Hpre Hpost.
  by apply (ask_served g now act w (concat (pre ++ post)) Hfresh Honce).
Qed.

Lemma ask_for_request_reports_witness :
  ("r1" ∉ issued (concat (served_env ++ idle_env))) ∧
  executed_at_most_once (next_addr fresh_world) (concat (served_env ++ idle_env)) ∧
  ∃ w' res,
    _ask_for_request "r1" 0 ok_action (served_env ++ idle_env) fresh_world
      = Some (w', res) ∧
    (_request_dict w' !! "r1" = None ∧ res = (3, PyNone) ∨
     _request_dict w' !! "r1" = Some (next_addr fresh_world) ∧
     heap w' (next_addr fresh_world) = (execute (Request_init "r1" 0 ok_action)).1 ∧
     res = report ok_action).
Proof.
  assert (H1 : "r1" ∉ issued (concat (served_env ++ idle_env)))
    by (apply (bool_decide_unpack _); by vm_compute).
  assert (H2 : executed_at_most_once (next_addr fresh_world)
                 (concat (served_env ++ idle_env))) by (by exists []).
  split; [exact H1|]. split; [exact H2|].
  apply (ask_for_request_reports "r1" 0 ok_action served_env idle_env fresh_world
           H1 H2); [reflexivity|simpl; lia].
Defined.

(** The same run, computed: the console gets the value the action returned. *)
Example ask_for_request_served :
  (snd <$> _ask_for_request "r1" 0 ok_action (served_env ++ idle_env) fresh_world)
  = Some (3, PyStr "ok") ∧
  (snd <$> _ask_for_request "r1" 0 boom_action (served_env ++ idle_env) fresh_world)
  = Some (-1, PyNone).
Proof. split; by vm_compute. Qed.

(** X14. A request that leaves the registry before its action is called
    (the reaper found it too old): [_ask_for_request] returns [(3, None)],
    the pair it returns for an executed action that returned [None]; it
    does so within four reads after the request has gone. *)
Theorem evicted_request_reported_executed (g : string) (now : Z) (act : Action)
    (pre post : list (list Op)) (w : World) :
  g ∉ issued (concat (pre ++ post)) →
  exec_history (next_addr w) (concat pre) = [] →
  _request_dict (run_ops (concat pre) (create_request g now act w).1) !! g = None →
  (4 ≤ length post)%nat →
  ∃ w', _ask_for_request g now act (pre ++ post) w = Some (w', (3, PyNone)) ∧
    _request_dict w' !! g = None.
Proof.
  intros Hfresh Hpre Hgone Hpost.
  by apply (ask_evicted g now act w (concat (pre ++ post)) Hfresh).
Qed.

Lemma evicted_request_reported_executed_witness :
  _request_dict
    (run_ops (concat [[]; [OpSweep (seconds 172800)]])
       (create_request "r1" 0 ok_action fresh_world).1) !! "r1" = None ∧
  ∃ w', _ask_for_request "r1" 0 ok_action
          ([[]; [OpSweep (seconds 172800)]] ++ idle_env) fresh_world
        = Some (w', (3, PyNone)) ∧
    _request_dict w' !! "r1" = None.
Proof.
  assert (H1 : "r1" ∉ issued (concat ([[]; [OpSweep (seconds 172800)]] ++ idle_env)))
    by (apply (bool_decide_unpack _); by vm_compute).
  assert (H2 : _request_dict
                 (run_ops (concat [[]; [OpSweep (seconds 172800)]])
                    (create_request "r1" 0 ok_action fresh_world).1) !! "r1" = None)
    by (by vm_compute).
  split; [exact H2|].
  apply (evicted_request_reported_executed "r1" 0 ok_action
           [[]; [OpSweep (seconds 172800)]] idle_env fresh_world H1);
    [reflexivity|exact H2|simpl; lia].
Defined.

(** ** The console asking to stop *)

(** The request made by [stop_execution] never shows [ERROR]: its action
    raises [SystemExit], which [execute] answers with [EXECUTED]. *)
Lemma exit_request_never_fails g now w F Q S :
  g ∉ issued F → executed_at_most_once (next_addr w) F → F = Q ++ S →
  status_code <$>
    get_request_status (run_ops Q (create_request g now exit_action w).1) g
  ≠ Some (-1).
Proof.
  intros Hfresh Honce HF. unfold get_request_status.
  destruct (_request_dict (run_ops Q (create_request g now exit_action w).1) !! g)
    as [a'|] eqn:Ha; [|done].
  apply (created_lookup g now exit_action w F Hfresh _ _ _ HF) in Ha as Heq.
  subst a'.
  pose proof (created_object g now exit_action w F Hfresh Honce _ _ HF) as Hobj.
  assert (HonceQ : executed_at_most_once (next_addr w) Q).
  { apply (at_most_once_prefix _ _ S). by rewrite <- HF. }
  destruct (at_most_once_cases _ _ HonceQ) as [Hh|[Hh|Hh]];
    rewrite Hh in Hobj; unfold object_after in Hobj; by rewrite Hobj.
Qed.

(** X15. The console's [stop_execution], its request being registered under
    an id nobody else is given and [execute] being called once on it: once
    the request has been run (or has left the registry), the call ends
    within two more reads, and it ends with [exit(0)]; the message
    'Request failed!' is never reached. *)
Theorem stop_execution_exits (g : string) (now : Z)
    (pre post : list (list Op)) (w : World) :
  g ∉ issued (concat (pre ++ post)) →
  executed_at_most_once (next_addr w) (concat (pre ++ post)) →
  through g now exit_action w (concat pre) →
  (2 ≤ length post)%nat →
  ∃ w', stop_execution g now (pre ++ post) w = Some (w', Raise SystemExit).
Proof.
  intros Hfresh Honce Hpre Hpost.
  pose proof (concat_app pre post) as HF0.
  unfold stop_execution.
  change (create_request g now exit_action w)
    with ((create_request g now exit_action w).1, g). cbv beta iota.
  assert (Hne : pre ≠ []).
  { intros ->. destruct Hpre as [H|H]; simpl in H; [|done].
    by rewrite lookup_insert_eq in H. }
  destruct (wait_while_exits (status_in_1_2 g) pre post
              (create_request g now exit_action w).1 Hne)
    as (used1 & rest1 & Heq1 & Hu1 & -> & Hs1).
  { apply bool_decide_eq_false.
    pose proof (through_not_waiting g now exit_action w _ Hfresh Honce _ _ 1
                  HF0 Hpre (or_introl eq_refl)) as H1.
    pose proof (through_not_waiting g now exit_action w _ Hfresh Honce _ _ 2
                  HF0 Hpre (or_intror eq_refl)) as H2.
    intros [?|[?|[]%elem_of_nil]%elem_of_cons]%elem_of_cons; done. }
  destruct post as [|o post']; [simpl in Hpost; lia|].
  destruct (rest1 ++ o :: post') as [|o1 l] eqn:Htail; [by destruct rest1|].
  cbv zeta. rewrite <- run_ops_app. unfold status_is.
  rewrite bool_decide_eq_false_2; [by eexists|].
  apply (exit_request_never_fails g now w _ _ (concat l) Hfresh Honce).
  rewrite Heq1, <- (assoc_L (++)), Htail, concat_app. simpl.
  by rewrite <- (assoc_L (++)).
Qed.

Lemma stop_execution_exits_witness :
  through "r1" 0 exit_action fresh_world (concat served_env) ∧
  ∃ w', stop_execution "r1" 0 (served_env ++ idle_env) fresh_world
        = Some (w', Raise SystemExit).
Proof.
  assert (H1 : "r1" ∉ issued (concat (served_env ++ idle_env)))
    by (apply (bool_decide_unpack _); by vm_compute).
  assert (H2 : executed_at_most_once (next_addr fresh_world)
                 (concat (served_env ++ idle_env))) by (by exists []).
  assert (H3 : through "r1" 0 exit_action fresh_world (concat served_env))
    by (by right).
  split; [exact H3|].
  apply (stop_execution_exits "r1" 0 served_env idle_env fresh_world H1 H2 H3).
  simpl; lia.
Defined.

(** ** The reaper among the other threads *)

Lemma apply_op_responsiveness op w :
  responsiveness (apply_op op w) = responsiveness w.
Proof.
  destruct op as [g now act| |now|a|a]; simpl; try done.
  - unfold get_next_request. destruct (_request_deque w); [done|].
    by destruct (_request_dict w !! _).
  - unfold sweep. by destruct (discard_old _ _ _ _ _ _) as [[d q] res].
  - unfold heap_execute_try. by destruct (execute_try _).
Qed.

Lemma run_ops_responsiveness ops : ∀ w,
  responsiveness (run_ops ops w) = responsiveness w.
Proof.
  induction ops as [|op ops IH]; intros w; [done|].
  simpl. by rewrite IH, apply_op_responsiveness.
Qed.

Lemma run_among_ok env : ∀ ops st,
  0 ≤ responsiveness (world st) →
  reached ops (world st) →
  NoDup (issued ops ++ issued (concat env.*1)) →
  (∀ e, (run_among env st).2 ≠ Died e) ∧
  manager_ok (world (run_among env st).1).
Proof.
  induction env as [|[others [stop now]] env IH]; intros ops st Hresp Hw Hnd.
  - split; [done|]. by destruct Hw as (_ & _ & ?).
  - simpl in *. rewrite issued_app, (assoc_L (++)), <- issued_app in Hnd.
    assert (Hnd1 : NoDup (issued (ops ++ others)))
      by (by apply NoDup_app in Hnd as [? _]).
    pose proof (reached_steps _ _ _ Hnd1 Hw) as Hw1.
    assert (Hresp1 : 0 ≤ responsiveness (run_ops others (world st)))
      by (by rewrite run_ops_responsiveness).
    unfold run_iteration, sleep. simpl.
    rewrite decide_False by lia. destruct stop.
    { split; [done|]. by destruct Hw1 as (_ & _ & ?). }
    case_decide.
    { by apply (IH (ops ++ others)). }
    assert (Hw2 : reached ((ops ++ others) ++ [OpSweep now])
                    (sweep now (run_ops others (world st))).1).
    { apply (reached_step _ (OpSweep now)); [|done].
      by rewrite issued_app, app_nil_r. }
    destruct (sweep_manager_ok now (run_ops others (world st))) as [Hres _];
      [by destruct Hw1 as (_ & _ & ?)|].
    pose proof (apply_op_responsiveness (OpSweep now)
                  (run_ops others (world st))) as Hresp2. simpl in Hresp2.
    destruct (sweep now (run_ops others (world st))) as [w' res]. simpl in *.
    subst res. apply (IH ((ops ++ others) ++ [OpSweep now])); [simpl; lia|done|].
    by rewrite issued_app, app_nil_r.
Qed.

(** X16. The reaper of a fresh manager never dies, however long it has
    been running and whatever the other threads do to the manager between
    its ticks (submissions with uuids that do not repeat,
    [get_next_request], [execute]). The responsiveness is not negative
    (else the first [sleep] raises), and it and the time already passed are
    whole numbers of 64ths of a second, so that the sweeps come at the
    ticks at which the code makes them. No sweep raises [KeyError], and the
    FIFO the reaper leaves holds registered ids only, none of them twice. *)
Theorem reaper_never_dies (resp discard : option Z) (t0 : Z) (log : list Z)
    (env : list (list Op * (bool * Z))) :
  0 ≤ responsiveness (RequestManager_init resp discard) →
  float_exact (responsiveness (RequestManager_init resp discard)) →
  0 ≤ t0 →
  float_exact t0 →
  NoDup (issued (concat env.*1)) →
  (∀ e, (run_among env {| time_passed := t0;
                          world := RequestManager_init resp discard;
                          sweep_log := log |}).2 ≠ Died e) ∧
  manager_ok
    (world (run_among env {| time_passed := t0;
                             world := RequestManager_init resp discard;
                             sweep_log := log |}).1).
Proof.
  intros Hresp _ _ _ Hnd.
  apply (run_among_ok env []); [done|apply reached_init|done].
Qed.

Lemma reaper_never_dies_witness :
  0 ≤ responsiveness (RequestManager_init None None) ∧
  float_exact (responsiveness (RequestManager_init None None)) ∧
  float_exact (seconds 3600) ∧
  NoDup (issued (concat busy_reaper_env.*1)) ∧
  run_among busy_reaper_env
    {| time_passed := seconds 3600; world := RequestManager_init None None;
       sweep_log := [] |}
  = ({| time_passed := seconds 3600 + 5 * half_second;
        world := (sweep (seconds 172800)
                    (run_ops (concat busy_reaper_env.*1)
                       (RequestManager_init None None))).1;
        sweep_log := [seconds 3600 + 4 * half_second;
                      seconds 3600 + 3 * half_second;
                      seconds 3600 + 2 * half_second;
                      seconds 3600 + 1 * half_second] |}, Break) ∧
  manager_ok
    (world (run_among busy_reaper_env
              {| time_passed := seconds 3600;
                 world := RequestManager_init None None;
                 sweep_log := [] |}).1).
Proof.
  assert (H0 : 0 ≤ responsiveness (RequestManager_init None None))
    by (by vm_compute).
  assert (H1 : float_exact (responsiveness (RequestManager_init None None)))
    by (by exists 32).
  assert (H2 : 0 ≤ seconds 3600) by (by vm_compute).
  assert (H3 : float_exact (seconds 3600)) by (by exists 230400).
  assert (Hnd : NoDup (issued (concat busy_reaper_env.*1)))
    by (apply (bool_decide_unpack _); by vm_compute).
  split; [exact H0|]. split; [exact H1|]. split; [exact H3|].
  split; [exact Hnd|].
  split; [by vm_compute|].
  exact (proj2 (reaper_never_dies None None (seconds 3600) [] busy_reaper_env
                  H0 H1 H2 H3 Hnd)).
Defined.
